(** * ThreadSafetyDemo.cpp: three counters under two concurrent workers

    The program of [Concurrency & Thread Safety/ThreadSafetyDemo.cpp] is
    embedded as an interleaving machine.  A counter class gives the atomic
    actions its [increment] is made of; [runThreads*] schedules the calling
    thread and the two [std::thread] workers one action at a time; [main]
    runs the three demonstrations in sequence and writes to the console.

    Memory accesses of different threads are interleaved in a single global
    order, each plain [count++] being a load followed by a store (the source:
    "Read-Modify-Write is not atomic"). *)

From Stdlib Require Import ZArith NArith List Lia Bool String DecimalString.
Import ListNotations.
Open Scope Z_scope.

(* ================================================================= *)
(** ** The C++ [int] *)

(** [int] is 32 bits wide, as on the platforms the program is built for. *)
Definition int_bits : Z := 32.
Definition INT_MAX : Z := 2 ^ (int_bits - 1) - 1.
Definition INT_MIN : Z := - 2 ^ (int_bits - 1).

(** Two's complement reduction into [INT_MIN .. INT_MAX]. *)
Definition wrap_int (z : Z) : Z :=
  (z + 2 ^ (int_bits - 1)) mod 2 ^ int_bits - 2 ^ (int_bits - 1).

(** [v++] on a plain [int]: overflow is undefined, hence no result. *)
Definition int_incr (v : Z) : option Z :=
  if v <? INT_MAX then Some (v + 1) else None.

(** [std::atomic<int>::operator++]: one read-modify-write that hands back
    the previous value; on a signed type the sum is computed as on the
    unsigned type and converted back, so it wraps around. *)
Definition atomic_fetch_add (v d : Z) : Z * Z := (v, wrap_int (v + d)).

(** [cout << int]. *)
Definition show_int (z : Z) : string := NilZero.string_of_int (Z.to_int z).

(* ================================================================= *)
(** ** Threads and counter classes *)

Inductive tid := T1 | T2.

Definition tid_eqb (a b : tid) : bool :=
  match a, b with T1, T1 | T2, T2 => true | _, _ => false end.

Definition other (t : tid) : tid := match t with T1 => T2 | T2 => T1 end.

(** What [runThreads*] and [main] use of a counter class: its constructor,
    the atomic actions of [increment] and the final read of [count].  An
    action of thread [me] at program point [p] on object [o] gives the new
    object and the next point ([None]: the call returns); no result means
    that the thread cannot move (it waits for the mutex) or has no defined
    behaviour. *)
Record counter_class := {
  obj : Type;
  point : Type;
  construct : obj;
  increment_entry : point;
  increment_step : tid -> point -> obj -> option (obj * option point);
  read_count : obj -> Z
}.

Module UnsafeCounter.

Record t := mk { count : Z }.

Definition fresh : t := mk 0.

(** [count++]: load, then store the loaded value plus one. *)
Inductive pc := Load | Store (tmp : Z).

Definition step (me : tid) (p : pc) (o : t) : option (t * option pc) :=
  match p with
  | Load => Some (o, Some (Store (count o)))
  | Store tmp =>
      match int_incr tmp with
      | Some v => Some (mk v, None)
      | None => None
      end
  end.

Definition class : counter_class :=
  {| obj := t; point := pc; construct := fresh; increment_entry := Load;
     increment_step := step; read_count := count |}.

End UnsafeCounter.

Module SafeCounterOnlyMutex.

(** [mtx] is the thread that holds the mutex, if any. *)
Record t := mk { count : Z; mtx : option tid }.

Definition fresh : t := mk 0 None.

(** [lock_guard<mutex> lock(mtx); count++;] and the guard's destructor. *)
Inductive pc := Lock | Load | Store (tmp : Z) | Unlock.

Definition step (me : tid) (p : pc) (o : t) : option (t * option pc) :=
  match p with
  | Lock =>
      match mtx o with
      | None => Some (mk (count o) (Some me), Some Load)
      | Some _ => None
      end
  | Load => Some (o, Some (Store (count o)))
  | Store tmp =>
      match int_incr tmp with
      | Some v => Some (mk v (mtx o), Some Unlock)
      | None => None
      end
  | Unlock => Some (mk (count o) None, None)
  end.

Definition class : counter_class :=
  {| obj := t; point := pc; construct := fresh; increment_entry := Lock;
     increment_step := step; read_count := count |}.

End SafeCounterOnlyMutex.

Module SafeCounterAtomic.

Record t := mk { count : Z }.

Definition fresh : t := mk 0.

(** [count++] on [atomic<int>]: a single fetch-and-add. *)
Inductive pc := FetchAdd.

Definition step (me : tid) (p : pc) (o : t) : option (t * option pc) :=
  match p with
  | FetchAdd => Some (mk (snd (atomic_fetch_add (count o) 1)), None)
  end.

(** [count.load()]. *)
Definition load (o : t) : Z := count o.

Definition class : counter_class :=
  {| obj := t; point := pc; construct := fresh; increment_entry := FetchAdd;
     increment_step := step; read_count := load |}.

End SafeCounterAtomic.

(* ================================================================= *)
(** ** A call of [increment] by a single thread *)

Section Sequential.

Variable C : counter_class.

(** Runs the actions of one call to its return. *)
Fixpoint run_call (fuel : nat) (me : tid) (p : point C) (o : obj C)
  : option (obj C) :=
  match fuel with
  | O => None
  | S fuel' =>
      match increment_step C me p o with
      | None => None
      | Some (o', None) => Some o'
      | Some (o', Some p') => run_call fuel' me p' o'
      end
  end.

Definition increment (o : obj C) : option (obj C) :=
  run_call 8 T1 (increment_entry C) o.

(** [n] calls one after the other. *)
Definition increments (n : N) (o : obj C) : option (obj C) :=
  N.iter n (fun r => match r with Some o' => increment o' | None => None end)
         (Some o).

End Sequential.

(* ================================================================= *)
(** ** [runThreadsUnsafe], [runThreadsSafe], [runThreadsAtomic] *)

Inductive agent := Caller | Worker (t : tid).

(** What an observer of a run sees happen.  [EvCall] is recorded when the
    loop test goes into [increment], [EvRet] together with the last action
    of the call. *)
Inductive event :=
| EvSpawn (t : tid)
| EvCall (t : tid)
| EvRet (t : tid)
| EvExit (t : tid)
| EvJoin (t : tid).

Definition event_eqb (a b : event) : bool :=
  match a, b with
  | EvSpawn x, EvSpawn y | EvCall x, EvCall y | EvRet x, EvRet y
  | EvExit x, EvExit y | EvJoin x, EvJoin y => tid_eqb x y
  | _, _ => false
  end.

Definition occurrences (e : event) (l : list event) : Z :=
  Z.of_nat (List.length (List.filter (event_eqb e) l)).

(** The five points of the body: [thread t1(task); thread t2(task);
    t1.join(); t2.join();] and the return. *)
Inductive rpc := Spawn1 | Spawn2 | Join1 | Join2 | Returned.

Section RunThreads.

Variable C : counter_class.

(** The lambda [task]: [for (int i = 0; i < 1000; ++i) counter.increment();] *)
Inductive worker :=
| AtLoop (i : Z)
| InCall (i : Z) (p : point C)
| Finished.

Inductive thread := NotStarted | Running (w : worker) | Joined.

Record hstate := mkH {
  counter : obj C;
  thread1 : thread;
  thread2 : thread;
  caller : rpc;
  history : list event   (* latest first *)
}.

Definition get_thread (t : tid) (s : hstate) : thread :=
  match t with T1 => thread1 s | T2 => thread2 s end.

(** One action of the task; the event, if any, is what it lets be seen. *)
Definition task_step (me : tid) (w : worker) (o : obj C)
  : option (worker * obj C * option event) :=
  match w with
  | AtLoop i =>
      if i <? 1000
      then Some (InCall i (increment_entry C), o, Some (EvCall me))
      else Some (Finished, o, Some (EvExit me))
  | InCall i p =>
      match increment_step C me p o with
      | None => None
      | Some (o', Some p') => Some (InCall i p', o', None)
      | Some (o', None) =>
          match int_incr i with
          | Some i' => Some (AtLoop i', o', Some (EvRet me))
          | None => None
          end
      end
  | Finished => None
  end.

Definition record (e : option event) (h : list event) : list event :=
  match e with Some e' => e' :: h | None => h end.

Definition worker_step (me : tid) (s : hstate) : option hstate :=
  match get_thread me s with
  | Running w =>
      match task_step me w (counter s) with
      | None => None
      | Some (w', o', e) =>
          Some (match me with
                | T1 => mkH o' (Running w') (thread2 s) (caller s)
                            (record e (history s))
                | T2 => mkH o' (thread1 s) (Running w') (caller s)
                            (record e (history s))
                end)
      end
  | _ => None
  end.

Definition caller_step (s : hstate) : option hstate :=
  match caller s with
  | Spawn1 =>
      Some (mkH (counter s) (Running (AtLoop 0)) (thread2 s) Spawn2
                (EvSpawn T1 :: history s))
  | Spawn2 =>
      Some (mkH (counter s) (thread1 s) (Running (AtLoop 0)) Join1
                (EvSpawn T2 :: history s))
  | Join1 =>
      match thread1 s with
      | Running Finished =>
          Some (mkH (counter s) Joined (thread2 s) Join2
                    (EvJoin T1 :: history s))
      | _ => None
      end
  | Join2 =>
      match thread2 s with
      | Running Finished =>
          Some (mkH (counter s) (thread1 s) Joined Returned
                    (EvJoin T2 :: history s))
      | _ => None
      end
  | Returned => None
  end.

Definition hstep (a : agent) (s : hstate) : option hstate :=
  match a with
  | Caller => caller_step s
  | Worker t => worker_step t s
  end.

(** The call [runThreads*(counter)] on the object [o]. *)
Definition enter (o : obj C) : hstate := mkH o NotStarted NotStarted Spawn1 [].

Definition returned (s : hstate) : bool :=
  match caller s with Returned => true | _ => false end.

(** The state after the agents of a schedule have moved in turn. *)
Fixpoint run_schedule (sched : list agent) (s : hstate) : option hstate :=
  match sched with
  | [] => Some s
  | a :: rest =>
      match hstep a s with
      | Some s' => run_schedule rest s'
      | None => None
      end
  end.

End RunThreads.

Arguments AtLoop {C} i.
Arguments InCall {C} i p.
Arguments Finished {C}.
Arguments NotStarted {C}.
Arguments Running {C} w.
Arguments Joined {C}.
Arguments counter {C} h.
Arguments thread1 {C} h.
Arguments thread2 {C} h.
Arguments caller {C} h.
Arguments history {C} h.
Arguments get_thread {C} t s.
Arguments hstep {C} a s.
Arguments returned {C} s.
Arguments run_schedule {C} sched s.

Arguments worker_step {C} me s.
Arguments caller_step {C} s.
Arguments task_step {C} me w o.

Definition runThreadsUnsafe := enter UnsafeCounter.class.
Definition runThreadsSafe := enter SafeCounterOnlyMutex.class.
Definition runThreadsAtomic := enter SafeCounterAtomic.class.

(* ================================================================= *)
(** ** [main] *)

Definition banner : string := "--- C++ Concurrency & Thread Safety Demo ---".
Definition unsafe_text : string := "Unsafe Counter Value (Expected 2000): ".
Definition mutex_text : string := "Safe Counter (Mutex) Value (Expected 2000): ".
Definition atomic_text : string := "Safe Counter (Atomic) Value (Expected 2000): ".

(** Where [main] is: before its first statement, inside one of the three
    calls (with the objects constructed so far), or after [return]. *)
Inductive main_pc :=
| Start
| Demo1 (h : hstate UnsafeCounter.class)
| Demo2 (unsafeObj : UnsafeCounter.t) (h : hstate SafeCounterOnlyMutex.class)
| Demo3 (unsafeObj : UnsafeCounter.t) (safeObj : SafeCounterOnlyMutex.t)
        (h : hstate SafeCounterAtomic.class)
| Exited (unsafeObj : UnsafeCounter.t) (safeObj : SafeCounterOnlyMutex.t)
         (atomicObj : SafeCounterAtomic.t) (code : Z).

(** [console]: the lines written to [cout], oldest first. *)
Record program := mkP { control : main_pc; console : list string }.

Definition boot : program := mkP Start [].

(** One action of the program.  Between two calls [main] is alone: writing
    a line, constructing the next counter and entering the next call are one
    action of the caller.  Inside a call the action is one of [runThreads*];
    the counter is read, for the line written, once the call has returned. *)
Definition main_step (a : agent) (s : program) : option program :=
  match control s with
  | Start =>
      match a with
      | Caller =>
          Some (mkP (Demo1 (runThreadsUnsafe UnsafeCounter.fresh))
                    (console s ++ [banner]))
      | Worker _ => None
      end
  | Demo1 h =>
      if returned h then
        match a with
        | Caller =>
            Some (mkP (Demo2 (counter h)
                             (runThreadsSafe SafeCounterOnlyMutex.fresh))
                      (console s
                         ++ [(unsafe_text
                                ++ show_int (UnsafeCounter.count (counter h)))
                              %string]))
        | Worker _ => None
        end
      else option_map (fun h' => mkP (Demo1 h') (console s)) (hstep a h)
  | Demo2 u h =>
      if returned h then
        match a with
        | Caller =>
            Some (mkP (Demo3 u (counter h)
                             (runThreadsAtomic SafeCounterAtomic.fresh))
                      (console s
                         ++ [(mutex_text
                                ++ show_int
                                     (SafeCounterOnlyMutex.count (counter h)))
                              %string]))
        | Worker _ => None
        end
      else option_map (fun h' => mkP (Demo2 u h') (console s)) (hstep a h)
  | Demo3 u m h =>
      if returned h then
        match a with
        | Caller =>
            Some (mkP (Exited u m (counter h) 0)
                      (console s
                         ++ [(atomic_text
                                ++ show_int
                                     (SafeCounterAtomic.load (counter h)))
                              %string]))
        | Worker _ => None
        end
      else option_map (fun h' => mkP (Demo3 u m h') (console s)) (hstep a h)
  | Exited _ _ _ _ => None
  end.

Definition exited (s : program) : bool :=
  match control s with Exited _ _ _ _ => true | _ => false end.

Definition exit_code (s : program) : option Z :=
  match control s with Exited _ _ _ c => Some c | _ => None end.




(* ================================================================= *)
(** ** Runs of a machine *)

Section Runs.

Context {State : Type}.
Variable move : agent -> State -> option State.
Variable final : State -> bool.

Definition steps_to (s s' : State) : Prop := exists a, move a s = Some s'.

Inductive reaches (s : State) : State -> Prop :=
| reaches_here : reaches s s
| reaches_more s1 s2 : reaches s s1 -> steps_to s1 s2 -> reaches s s2.

(** Whatever the scheduler does from [s], the run is finite, never stuck
    before a final state, and stops in a final state where [P] holds. *)
Inductive always_ends (P : State -> Prop) (s : State) : Prop :=
| ends_now : final s = true -> P s -> always_ends P s
| ends_later :
    final s = false ->
    (exists s', steps_to s s') ->
    (forall s', steps_to s s' -> always_ends P s') ->
    always_ends P s.

End Runs.

(* ================================================================= *)
(** ** Schedules used as examples of runs *)

(** The caller spawns both workers, the first worker makes all its [k]
    actions, then the second, and the caller joins them. *)
Definition sequential_schedule (k : nat) : list agent :=
  [Caller; Caller]
    ++ List.repeat (Worker T1) k ++ List.repeat (Worker T2) k
    ++ [Caller; Caller].

(** The workers take turns, one action each, [k] actions each. *)
Definition lockstep_schedule (k : nat) : list agent :=
  [Caller; Caller]
    ++ List.concat (List.repeat [Worker T1; Worker T2] k)
    ++ [Caller; Caller].


Definition program_schedule : list agent :=
  [Caller] ++ lockstep_schedule (Z.to_nat 3001) ++ [Caller]
           ++ sequential_schedule (Z.to_nat 5001) ++ [Caller]
           ++ lockstep_schedule (Z.to_nat 2001) ++ [Caller].

(** The first worker has loaded the counter under the mutex, the second
    waits for the mutex. *)
Definition mutex_midway : list agent :=
  [Caller; Caller; Worker T1; Worker T1; Worker T1; Worker T2].

(* ================================================================= *)
(** ** Invariants of a call of [runThreads*] *)

Section HarnessInvariant.

Variable C : counter_class.

(** Calls of [increment] the thread has returned from. *)
Definition done_calls (th : thread C) : Z :=
  match th with
  | NotStarted => 0
  | Running (AtLoop i) => i
  | Running (InCall i _) => i
  | Running Finished => 1000
  | Joined => 1000
  end.

Definition in_call (th : thread C) : Z :=
  match th with Running (InCall _ _) => 1 | _ => 0 end.

Definition spawned (th : thread C) : Z :=
  match th with NotStarted => 0 | _ => 1 end.

Definition left_loop (th : thread C) : Z :=
  match th with Running Finished | Joined => 1 | _ => 0 end.

Definition joined (th : thread C) : Z :=
  match th with Joined => 1 | _ => 0 end.

Definition wf_thread (th : thread C) : Prop :=
  match th with
  | Running (AtLoop i) => 0 <= i <= 1000
  | Running (InCall i _) => 0 <= i < 1000
  | _ => True
  end.

(** The history agrees with where thread [t] is. *)
Definition thread_log (t : tid) (th : thread C) (h : list event) : Prop :=
  occurrences (EvSpawn t) h = spawned th
  /\ occurrences (EvCall t) h = done_calls th + in_call th
  /\ occurrences (EvRet t) h = done_calls th
  /\ occurrences (EvExit t) h = left_loop th
  /\ occurrences (EvJoin t) h = joined th.

(** Which threads exist at each point of the body. *)
Definition shape (c : rpc) (th1 th2 : thread C) : Prop :=
  match c with
  | Spawn1 => spawned th1 = 0 /\ spawned th2 = 0
  | Spawn2 => spawned th1 = 1 /\ joined th1 = 0 /\ spawned th2 = 0
  | Join1 =>
      spawned th1 = 1 /\ joined th1 = 0 /\ spawned th2 = 1 /\ joined th2 = 0
  | Join2 => joined th1 = 1 /\ spawned th2 = 1 /\ joined th2 = 0
  | Returned => joined th1 = 1 /\ joined th2 = 1
  end.

Definition hinv (s : hstate C) : Prop :=
  shape (caller s) (thread1 s) (thread2 s)
  /\ wf_thread (thread1 s) /\ wf_thread (thread2 s)
  /\ thread_log T1 (thread1 s) (history s)
  /\ thread_log T2 (thread2 s) (history s).

(** Actions left in the call from a point of [increment] on, at most 4. *)
Variable rank : point C -> Z.

Definition worker_left (w : worker C) : Z :=
  match w with
  | AtLoop i => (1000 - i) * 6 + 1
  | InCall i p => (1000 - i - 1) * 6 + 2 + rank p
  | Finished => 0
  end.

Definition thread_left (th : thread C) : Z :=
  match th with
  | NotStarted => 6002
  | Running w => worker_left w
  | Joined => 0
  end.

Definition caller_left (c : rpc) : Z :=
  match c with
  | Spawn1 => 4 | Spawn2 => 3 | Join1 => 2 | Join2 => 1 | Returned => 0
  end.

Definition actions_left (s : hstate C) : nat :=
  Z.to_nat (thread_left (thread1 s) + thread_left (thread2 s)
            + caller_left (caller s)).

Definition rank_ok : Prop :=
  (forall p, 0 <= rank p <= 4)
  /\ (forall me p o o' p',
         increment_step C me p o = Some (o', Some p') -> rank p' < rank p).

End HarnessInvariant.

Arguments done_calls {C} th.
Arguments in_call {C} th.
Arguments spawned {C} th.
Arguments left_loop {C} th.
Arguments joined {C} th.
Arguments wf_thread {C} th.
Arguments thread_log {C} t th h.
Arguments shape {C} c th1 th2.
Arguments hinv {C} s.
Arguments actions_left {C} rank s.
Arguments thread_left {C} rank th.
Arguments worker_left {C} rank w.

(** *** The unprotected counter *)

Definition unsafe_rank (p : UnsafeCounter.pc) : Z :=
  match p with UnsafeCounter.Load => 1 | UnsafeCounter.Store _ => 0 end.

(** A loaded value waiting to be stored is within the calls made so far. *)
Definition unsafe_tmp (th : thread UnsafeCounter.class) (n : Z) : Prop :=
  match th with
  | Running (InCall _ (UnsafeCounter.Store tmp)) => 0 <= tmp <= n
  | _ => True
  end.

Definition unsafe_inv (s : hstate UnsafeCounter.class) : Prop :=
  let n := done_calls (thread1 s) + done_calls (thread2 s) in
  0 <= UnsafeCounter.count (counter s) <= n
  /\ (0 < n -> 1 <= UnsafeCounter.count (counter s))
  /\ unsafe_tmp (thread1 s) n /\ unsafe_tmp (thread2 s) n.

(** *** The counter behind a mutex *)

Definition mutex_rank (p : SafeCounterOnlyMutex.pc) : Z :=
  match p with
  | SafeCounterOnlyMutex.Lock => 3
  | SafeCounterOnlyMutex.Load => 2
  | SafeCounterOnlyMutex.Store _ => 1
  | SafeCounterOnlyMutex.Unlock => 0
  end.

(** The thread is between the guard's constructor and its destructor. *)
Definition holding (th : thread SafeCounterOnlyMutex.class) : Z :=
  match th with
  | Running (InCall _ SafeCounterOnlyMutex.Lock) => 0
  | Running (InCall _ _) => 1
  | _ => 0
  end.

(** Calls whose store has been done. *)
Definition credit (th : thread SafeCounterOnlyMutex.class) : Z :=
  match th with
  | Running (InCall i SafeCounterOnlyMutex.Unlock) => i + 1
  | _ => done_calls th
  end.

(** A loaded value waiting to be stored is still the counter's value. *)
Definition mutex_tmp (th : thread SafeCounterOnlyMutex.class) (c : Z) : Prop :=
  match th with
  | Running (InCall _ (SafeCounterOnlyMutex.Store tmp)) => tmp = c
  | _ => True
  end.

Definition owner (th1 th2 : thread SafeCounterOnlyMutex.class) : option tid :=
  if holding th1 =? 1 then Some T1
  else if holding th2 =? 1 then Some T2 else None.

Definition mutex_inv (s : hstate SafeCounterOnlyMutex.class) : Prop :=
  SafeCounterOnlyMutex.count (counter s)
  = credit (thread1 s) + credit (thread2 s)
  /\ holding (thread1 s) + holding (thread2 s) <= 1
  /\ SafeCounterOnlyMutex.mtx (counter s) = owner (thread1 s) (thread2 s)
  /\ mutex_tmp (thread1 s) (SafeCounterOnlyMutex.count (counter s))
  /\ mutex_tmp (thread2 s) (SafeCounterOnlyMutex.count (counter s)).

(** *** The atomic counter *)

Definition atomic_rank (p : SafeCounterAtomic.pc) : Z := 0.

Definition atomic_inv (s : hstate SafeCounterAtomic.class) : Prop :=
  SafeCounterAtomic.count (counter s)
  = done_calls (thread1 s) + done_calls (thread2 s).

(** *** [main] *)

(** The three counters at the end of a run of the whole program. *)
Definition outcome (u m a : Z) (s : program) : Prop :=
  exists uo mo ao,
    control s = Exited uo mo ao 0
    /\ UnsafeCounter.count uo = u
    /\ SafeCounterOnlyMutex.count mo = m
    /\ SafeCounterAtomic.load ao = a
    /\ console s
       = [banner;
          (unsafe_text ++ show_int u)%string;
          (mutex_text ++ show_int m)%string;
          (atomic_text ++ show_int a)%string].

(** The increment of the table "atomic load, +1, atomic store" read as three
    operations: each access is atomic, the sequence is not. *)
Module TableAtomic.

Inductive pc := AtomicLoad | AtomicStore (tmp : Z).

Definition step (me : tid) (p : pc) (o : SafeCounterAtomic.t)
  : option (SafeCounterAtomic.t * option pc) :=
  match p with
  | AtomicLoad => Some (o, Some (AtomicStore (SafeCounterAtomic.load o)))
  | AtomicStore tmp => Some (SafeCounterAtomic.mk (wrap_int (tmp + 1)), None)
  end.

Definition class : counter_class :=
  {| obj := SafeCounterAtomic.t; point := pc;
     construct := SafeCounterAtomic.fresh; increment_entry := AtomicLoad;
     increment_step := step; read_count := SafeCounterAtomic.load |}.

End TableAtomic.

(** *** What the claims speak of *)

(** Both workers were spawned once, made 1000 calls of [increment], all of
    which returned, left the loop and were joined. *)
Definition completed {C : counter_class} (s : hstate C) : Prop :=
  thread1 s = Joined /\ thread2 s = Joined
  /\ forall t,
      occurrences (EvSpawn t) (history s) = 1
      /\ occurrences (EvCall t) (history s) = 1000
      /\ occurrences (EvRet t) (history s) = 1000
      /\ occurrences (EvExit t) (history s) = 1
      /\ occurrences (EvJoin t) (history s) = 1.


Definition demo_returned (s : program) : option bool :=
  match control s with
  | Demo1 h => Some (returned h)
  | Demo2 _ h => Some (returned h)
  | Demo3 _ _ h => Some (returned h)
  | _ => None
  end.

(** The call [main] is in is a run of that demonstration alone, started on a
    newly constructed counter. *)
Definition on_its_own (s : program) : Prop :=
  match control s with
  | Demo1 h => reaches hstep (runThreadsUnsafe UnsafeCounter.fresh) h
  | Demo2 _ h => reaches hstep (runThreadsSafe SafeCounterOnlyMutex.fresh) h
  | Demo3 _ _ h => reaches hstep (runThreadsAtomic SafeCounterAtomic.fresh) h
  | _ => True
  end.


(** The first worker loads the unprotected counter, the second makes two
    whole increments; the first worker's store is next. *)
Definition lost_update_schedule : list agent :=
  [Caller; Caller; Worker T1; Worker T1;
   Worker T2; Worker T2; Worker T2; Worker T2; Worker T2; Worker T2].

(** The state [lost_update_schedule] leads to. *)
Definition lost_update_state : hstate UnsafeCounter.class :=
  mkH UnsafeCounter.class
      (UnsafeCounter.mk 2)
      (Running (@InCall UnsafeCounter.class 0 (UnsafeCounter.Store 0)))
      (Running (AtLoop 2))
      Join1
      [EvRet T2; EvCall T2; EvRet T2; EvCall T2; EvCall T1;
       EvSpawn T2; EvSpawn T1].

(** The state [mutex_midway] leads to. *)
Definition mutex_midway_state : hstate SafeCounterOnlyMutex.class :=
  mkH SafeCounterOnlyMutex.class
      (SafeCounterOnlyMutex.mk 0 (Some T1))
      (Running (@InCall SafeCounterOnlyMutex.class 0
                        (SafeCounterOnlyMutex.Store 0)))
      (Running (@InCall SafeCounterOnlyMutex.class 0
                        SafeCounterOnlyMutex.Lock))
      Join1
      [EvCall T2; EvCall T1; EvSpawn T2; EvSpawn T1].



(** The schedule is a complete run of [runThreads*] from [s] and leaves the
    value [v] in the counter. *)
Definition ends_with (C : counter_class) (sched : list agent)
           (s : hstate C) (v : Z) : bool :=
  match run_schedule sched s with
  | Some s' => returned s' && (read_count C (counter s') =? v)
  | None => false
  end.

(** *** The least value the unprotected counter can end with *)

(** From its second iteration on, a worker loads a counter that has been
    stored to, hence at least 1. *)
Definition unsafe_tmp_low (th : thread UnsafeCounter.class) : Prop :=
  match th with
  | Running (InCall i (UnsafeCounter.Store tmp)) => 1 <= i -> 1 <= tmp
  | _ => True
  end.

(** The counter is below 2 only as long as a worker has made at most one
    of its stores. *)
Definition unsafe_low (s : hstate UnsafeCounter.class) : Prop :=
  unsafe_tmp_low (thread1 s) /\ unsafe_tmp_low (thread2 s)
  /\ (2 <= UnsafeCounter.count (counter s)
      \/ done_calls (thread1 s) <= 1 \/ done_calls (thread2 s) <= 1).

(** [k] whole increments of worker [t] with nobody in between: the loop
    test, the load and the store, [k] times. *)
Definition whole_increments (t : tid) (k : nat) : list agent :=
  List.concat (List.repeat [Worker t; Worker t; Worker t] k).

(** The first worker loads 0; the second makes [x] whole increments; the
    first stores 1 over them and makes [y] more; the second loads; the
    first finishes; the second stores what it loaded plus one and finishes. *)
Definition overwrite_schedule (x y : nat) : list agent :=
  [Caller; Caller]
    ++ [Worker T1; Worker T1]
    ++ whole_increments T2 x
    ++ [Worker T1]
    ++ whole_increments T1 y
    ++ [Worker T2; Worker T2]
    ++ whole_increments T1 (999 - y)
    ++ [Worker T1]
    ++ [Worker T2]
    ++ whole_increments T2 (999 - x)
    ++ [Worker T2]
    ++ [Caller; Caller].

(** The schedule that leaves [v] in the unprotected counter. *)
Definition schedule_for (v : Z) : list agent :=
  if v <=? 1001
  then overwrite_schedule (Z.to_nat (1001 - v)) 0
  else overwrite_schedule 0 (Z.to_nat (v - 1001)).

(** Calls of [increment] entered so far, both workers together: the loop
    tests that went into the body. *)
Definition entered_calls {C : counter_class} (s : hstate C) : Z :=
  occurrences (EvCall T1) (history s) + occurrences (EvCall T2) (history s).

(** The worker is in a call of the unprotected [increment] whose store is
    still to come. *)
Definition unsafe_before_store (th : thread UnsafeCounter.class) : Z :=
  match th with
  | Running (InCall _ UnsafeCounter.Load) => 1
  | Running (InCall _ (UnsafeCounter.Store _)) => 1
  | _ => 0
  end.

(** The worker is in a call of the locked [increment] whose store is still
    to come: it waits for the mutex or holds it and has not stored. *)
Definition locked_before_store (th : thread SafeCounterOnlyMutex.class) : Z :=
  match th with
  | Running (InCall _ SafeCounterOnlyMutex.Lock) => 1
  | Running (InCall _ SafeCounterOnlyMutex.Load) => 1
  | Running (InCall _ (SafeCounterOnlyMutex.Store _)) => 1
  | _ => 0
  end.

(** [h] is where a run of [runThreads*], started on a newly constructed
    counter of the class, has returned. *)
Definition complete_run (C : counter_class) (h : hstate C) : Prop :=
  reaches hstep (enter C (construct C)) h /\ returned h = true.

(** The states of the program at the return of the three calls, and at its
    exit, when the three calls were the runs [h1], [h2], [h3]. *)
Definition unsafe_line (h1 : hstate UnsafeCounter.class) : string :=
  (unsafe_text ++ show_int (UnsafeCounter.count (counter h1)))%string.

Definition mutex_line (h2 : hstate SafeCounterOnlyMutex.class) : string :=
  (mutex_text ++ show_int (SafeCounterOnlyMutex.count (counter h2)))%string.

Definition atomic_line (h3 : hstate SafeCounterAtomic.class) : string :=
  (atomic_text ++ show_int (SafeCounterAtomic.load (counter h3)))%string.

Definition in_first (h1 : hstate UnsafeCounter.class) : program :=
  mkP (Demo1 h1) [banner].

Definition in_second (h1 : hstate UnsafeCounter.class)
           (h2 : hstate SafeCounterOnlyMutex.class) : program :=
  mkP (Demo2 (counter h1) h2) [banner; unsafe_line h1].

Definition in_third (h1 : hstate UnsafeCounter.class)
           (h2 : hstate SafeCounterOnlyMutex.class)
           (h3 : hstate SafeCounterAtomic.class) : program :=
  mkP (Demo3 (counter h1) (counter h2) h3)
      [banner; unsafe_line h1; mutex_line h2].

Definition at_exit (h1 : hstate UnsafeCounter.class)
           (h2 : hstate SafeCounterOnlyMutex.class)
           (h3 : hstate SafeCounterAtomic.class) : program :=
  mkP (Exited (counter h1) (counter h2) (counter h3) 0)
      [banner; unsafe_line h1; mutex_line h2; atomic_line h3].

(** The way of the program from its start to its exit: it came to the
    return of [runThreadsUnsafe] with the run [h1], went on from there to
    the return of [runThreadsSafe] with [h2], from there to the return of
    [runThreadsAtomic] with [h3], and its next action was the exit. *)
Definition went_through (h1 : hstate UnsafeCounter.class)
           (h2 : hstate SafeCounterOnlyMutex.class)
           (h3 : hstate SafeCounterAtomic.class) : Prop :=
  reaches main_step boot (in_first h1) /\ returned h1 = true
  /\ reaches main_step (in_first h1) (in_second h1 h2) /\ returned h2 = true
  /\ reaches main_step (in_second h1 h2) (in_third h1 h2 h3)
  /\ returned h3 = true
  /\ main_step Caller (in_third h1 h2 h3) = Some (at_exit h1 h2 h3).

(** What a state of the program has behind it. *)
Definition trail (s : program) : Prop :=
  match control s with
  | Start => s = boot
  | Demo1 h => s = in_first h
  | Demo2 _ h =>
      exists h1,
        reaches main_step boot (in_first h1) /\ returned h1 = true
        /\ reaches main_step (in_first h1) s /\ s = in_second h1 h
  | Demo3 _ _ h =>
      exists h1 h2,
        reaches main_step boot (in_first h1) /\ returned h1 = true
        /\ reaches main_step (in_first h1) (in_second h1 h2)
        /\ returned h2 = true
        /\ reaches main_step (in_second h1 h2) s /\ s = in_third h1 h2 h
  | Exited _ _ _ _ =>
      exists h1 h2 h3, went_through h1 h2 h3 /\ s = at_exit h1 h2 h3
  end.

(** How far [main] is: 0 before its first statement, 1 to 3 in the calls
    of [runThreadsUnsafe], [runThreadsSafe], [runThreadsAtomic], 4 after
    [return]. *)
Definition stage (s : program) : Z :=
  match control s with
  | Start => 0
  | Demo1 _ => 1
  | Demo2 _ _ => 2
  | Demo3 _ _ _ => 3
  | Exited _ _ _ _ => 4
  end.


(** The worker stands at the mutex. *)
Definition at_lock (w : worker SafeCounterOnlyMutex.class) : bool :=
  match w with
  | InCall _ SafeCounterOnlyMutex.Lock => true
  | _ => false
  end.

Definition has_left_loop {C : counter_class} (w : worker C) : bool :=
  match w with Finished => true | _ => false end.

(** The schedule can be followed to its end. *)
Definition runs_through {C : counter_class} (sched : list agent)
           (s : hstate C) : bool :=
  match run_schedule sched s with Some _ => true | None => false end.

(** Where the atomic demonstration stands after [sequential_schedule]. *)
Definition atomic_sequential_end : hstate SafeCounterAtomic.class :=
  match run_schedule (sequential_schedule (Z.to_nat 2001))
                     (runThreadsAtomic SafeCounterAtomic.fresh) with
  | Some s => s
  | None => runThreadsAtomic SafeCounterAtomic.fresh
  end.

(** What the program has written when the unprotected counter ended
    with [v]. *)
Definition expected_console (v : Z) : list string :=
  [banner;
   (unsafe_text ++ show_int v)%string;
   "Safe Counter (Mutex) Value (Expected 2000): 2000"%string;
   "Safe Counter (Atomic) Value (Expected 2000): 2000"%string].

(* ================================================================= *)
(** ** The other programs of the repository *)

(** The text written to [cout] is one string; [endl] and ["\n"] add the
    newline character. *)
Definition nl : string := String (Ascii.ascii_of_nat 10) EmptyString.

Definition print (text : string) (out : string) : string :=
  (out ++ text)%string.

(** *** Encapsulation.cpp: [Student] *)

Module Student.

(** [age] is an [int] the constructor leaves without a value. *)
Record t := mk { name : string; age : option Z }.

(** [Student s;] *)
Definition fresh : t := mk EmptyString None.

Definition setName (n : string) (s : t) : t := mk n (age s).

Definition getName (s : t) : string := name s.

Definition refusal : string :=
  ("Age cannot be negative or zero." ++ nl)%string.

Definition setAge (a : Z) (s : t) (out : string) : t * string :=
  if 0 <? a then (mk (name s) (Some a), out) else (s, print refusal out).

(** No result while [age] has no value. *)
Definition getAge (s : t) : option Z := age s.

(** A use of the class from outside: calls of the two setters. *)
Inductive call := SetName (n : string) | SetAge (a : Z).

Definition do_call (st : t * string) (c : call) : t * string :=
  match c with
  | SetName n => (setName n (fst st), snd st)
  | SetAge a => setAge a (fst st) (snd st)
  end.

Definition do_calls (l : list call) (st : t * string) : t * string :=
  List.fold_left do_call l st.

(** The arguments of [setAge] that are refused. *)
Definition refused (c : call) : bool :=
  match c with SetAge a => a <=? 0 | SetName _ => false end.

Fixpoint refusals (n : nat) : string :=
  match n with
  | O => EmptyString
  | S n' => (refusal ++ refusals n')%string
  end.

End Student.

(** *** Keywords.cpp: [Example] *)

Module Example.

Record t := mk { name : string }.

(** [Example(string name)] with the static [count] before it; the new
    object and the [count] after it. *)
Definition construct (n : string) (count : Z) : option (t * Z) :=
  match int_incr count with
  | Some c => Some (mk n, c)
  | None => None
  end.

Definition display (e : t) (out : string) : string :=
  print ("Name: " ++ name e ++ nl) out.

Definition showCount (count : Z) (out : string) : string :=
  print ("Total Objects: " ++ show_int count ++ nl) out.

(** Objects constructed one after the other, with the names of [names]. *)
Fixpoint construct_all (names : list string) (count : Z)
  : option (list t * Z) :=
  match names with
  | [] => Some ([], count)
  | n :: rest =>
      match construct n count with
      | Some (e, c) =>
          match construct_all rest c with
          | Some (es, c') => Some (e :: es, c')
          | None => None
          end
      | None => None
      end
  end.

End Example.

(** *** The free store *)

Definition addr := nat.

Section FreeStore.

Variable V : Type.

(** The objects made by [new] and not yet deleted, latest first. *)
Definition heap := list (addr * V).

Fixpoint lookup (a : addr) (h : heap) : option V :=
  match h with
  | [] => None
  | (b, v) :: rest => if Nat.eqb a b then Some v else lookup a rest
  end.

(** [delete]: no result when nothing lives at the address. *)
Fixpoint free (a : addr) (h : heap) : option heap :=
  match h with
  | [] => None
  | (b, v) :: rest =>
      if Nat.eqb a b then Some rest
      else match free a rest with
           | Some rest' => Some ((b, v) :: rest')
           | None => None
           end
  end.

(** [new]: the allocator [pick] chooses the address. *)
Definition alloc (pick : heap -> addr) (v : V) (h : heap) : addr * heap :=
  (pick h, (pick h, v) :: h).

(** An allocator never hands out an address that is in use. *)
Definition allocator (pick : heap -> addr) : Prop :=
  forall h, lookup (pick h) h = None.

(** One allocator: the address after the highest one in use. *)
Definition above_all (h : heap) : addr :=
  S (List.fold_right (fun b m => Nat.max (fst b) m) O h).

End FreeStore.

Arguments lookup {V} a h.
Arguments free {V} a h.
Arguments alloc {V} pick v h.
Arguments allocator {V} pick.
Arguments above_all {V} h.

(** *** ConstructorDestructor.cpp: [Resource] *)

Module Resource.

Record t := mk { name : string; data : addr }.

(** The [int]s made by [new int], the [Resource]s made by [new Resource]
    and the text written so far. *)
Record world := mkW { ints : heap Z; objs : heap t; cout : string }.

Definition say (text : string) (w : world) : world :=
  mkW (ints w) (objs w) (print text (cout w)).

Section WithAllocator.

Variable pick : heap Z -> addr.
Variable pick_obj : heap t -> addr.

Definition new_int (v : Z) (w : world) : addr * world :=
  let (a, h) := alloc pick v (ints w) in (a, mkW h (objs w) (cout w)).

(** [Resource()] *)
Definition construct_default (w : world) : t * world :=
  let (a, w1) := new_int 0 w in
  (mk "Default Resource" a,
   say ("[Constructor] Default created: " ++ "Default Resource" ++ nl) w1).

(** [Resource(string n)] *)
Definition construct_named (n : string) (w : world) : t * world :=
  let (a, w1) := new_int 0 w in
  (mk n a, say ("[Constructor] Created: " ++ n ++ nl) w1).

(** [Resource(string n, int value)] *)
Definition construct_valued (n : string) (value : Z) (w : world)
  : t * world :=
  let (a, w1) := new_int value w in
  (mk n a,
   say ("[Constructor] Created with value: " ++ n ++ " ("
          ++ show_int value ++ ")" ++ nl) w1).

(** [Resource(const Resource& other)]: no result when [other.data] points
    to nothing. *)
Definition construct_copy (other : t) (w : world) : option (t * world) :=
  match lookup (data other) (ints w) with
  | Some v =>
      let (a, w1) := new_int v w in
      Some (mk (name other ++ " (Copy)") a,
            say ("[Copy Constructor] Copied from: " ++ name other ++ nl) w1)
  | None => None
  end.

(** [~Resource()]: the line, then [delete data]. *)
Definition destroy (r : t) (w : world) : option world :=
  let w1 := say ("[Destructor] Cleaning up: " ++ name r ++ nl) w in
  match free (data r) (ints w1) with
  | Some h => Some (mkW h (objs w1) (cout w1))
  | None => None
  end.

Definition use (r : t) (w : world) : option world :=
  match lookup (data r) (ints w) with
  | Some v =>
      Some (say ("Using resource: " ++ name r ++ " [Data: "
                   ++ show_int v ++ "]" ++ nl) w)
  | None => None
  end.

Definition createScope (w : world) : option world :=
  let w1 := say (nl ++ "--- Entering Scope ---" ++ nl) w in
  let (scoped, w2) := construct_named "ScopedResource" w1 in
  match use scoped w2 with
  | Some w3 => destroy scoped (say ("--- Exiting Scope ---" ++ nl) w3)
  | None => None
  end.

(** [new Resource()]: the object is constructed and put in the free store. *)
Definition new_default (w : world) : addr * world :=
  let (r, w1) := construct_default w in
  let (a, h) := alloc pick_obj r (objs w1) in
  (a, mkW (ints w1) h (cout w1)).

(** [p->use()] *)
Definition use_at (p : addr) (w : world) : option world :=
  match lookup p (objs w) with
  | Some r => use r w
  | None => None
  end.

(** [delete p]: the destructor, then the object leaves the free store. *)
Definition delete (p : addr) (w : world) : option world :=
  match lookup p (objs w) with
  | Some r =>
      match destroy r w with
      | Some w1 =>
          match free p (objs w1) with
          | Some h => Some (mkW (ints w1) h (cout w1))
          | None => None
          end
      | None => None
      end
  | None => None
  end.

(** [main]: the world at exit and the exit code; [r3] and [r2] are
    destroyed, in this order, when [main] returns. *)
Definition main (w : world) : option (world * Z) :=
  let w0 := say ("=== C++ Constructor & Destructor (RAII) Demo ===" ++ nl) w in
  let (r1, w1) := new_default w0 in
  match use_at r1 w1 with
  | None => None
  | Some w2 =>
      let (r2, w3) := construct_named "StackResource" w2 in
      match use r2 w3 with
      | None => None
      | Some w4 =>
          match construct_copy r2 w4 with
          | None => None
          | Some (r3, w5) =>
              match use r3 w5 with
              | None => None
              | Some w6 =>
                  match createScope w6 with
                  | None => None
                  | Some w7 =>
                      match delete r1
                              (say (nl ++ "Deleting heap resource..." ++ nl)
                                   w7) with
                      | None => None
                      | Some w8 =>
                          match destroy r3
                                  (say (nl ++ "End of Main" ++ nl) w8) with
                          | None => None
                          | Some w9 =>
                              match destroy r2 w9 with
                              | None => None
                              | Some w10 => Some (w10, 0)
                              end
                          end
                      end
                  end
              end
          end
      end
  end.

End WithAllocator.

(** What [createScope] writes. *)
Definition scope_transcript : string :=
  (nl ++ "--- Entering Scope ---" ++ nl
   ++ "[Constructor] Created: ScopedResource" ++ nl
   ++ "Using resource: ScopedResource [Data: 0]" ++ nl
   ++ "--- Exiting Scope ---" ++ nl
   ++ "[Destructor] Cleaning up: ScopedResource" ++ nl)%string.

(** What [main] writes. *)
Definition transcript : string :=
  ("=== C++ Constructor & Destructor (RAII) Demo ===" ++ nl
   ++ "[Constructor] Default created: Default Resource" ++ nl
   ++ "Using resource: Default Resource [Data: 0]" ++ nl
   ++ "[Constructor] Created: StackResource" ++ nl
   ++ "Using resource: StackResource [Data: 0]" ++ nl
   ++ "[Copy Constructor] Copied from: StackResource" ++ nl
   ++ "Using resource: StackResource (Copy) [Data: 0]" ++ nl
   ++ scope_transcript
   ++ nl ++ "Deleting heap resource..." ++ nl
   ++ "[Destructor] Cleaning up: Default Resource" ++ nl
   ++ nl ++ "End of Main" ++ nl
   ++ "[Destructor] Cleaning up: StackResource (Copy)" ++ nl
   ++ "[Destructor] Cleaning up: StackResource" ++ nl)%string.

End Resource.

(** *** RelationshipsDemo.cpp: [Engine] and [Airplane] *)

Module Airplane.

Record Engine := mkEngine { type : string }.

(** [engine] points to the [Engine] the airplane made. *)
Record t := mk { engine : addr }.

Record world := mkW { mem : heap Engine; cout : string }.

Section WithAllocator.

Variable pick : heap Engine -> addr.

(** [Airplane()]: the line, then [new Engine("Jet Engine")], whose
    constructor writes its own line. *)
Definition construct (w : world) : t * world :=
  let out := print ("Airplane created." ++ nl) (cout w) in
  let (a, h) := alloc pick (mkEngine "Jet Engine") (mem w) in
  (mk a, mkW h (print ("  [Engine created]" ++ nl) out)).

(** [~Airplane()]: [delete engine], whose destructor writes its line, then
    the airplane's line. *)
Definition destroy (p : t) (w : world) : option world :=
  match free (engine p) (mem w) with
  | Some h =>
      Some (mkW h (print ("Airplane destroyed." ++ nl)
                         (print ("  [Engine destroyed]" ++ nl) (cout w))))
  | None => None
  end.

End WithAllocator.

End Airplane.

(* ================================================================= *)
(** * Facts *)

Arguments wrap_int : simpl never.
Arguments int_incr : simpl never.

(** ** Integers *)

Lemma INT_MAX_value : INT_MAX = 2147483647.
Proof. reflexivity. Qed.

Lemma INT_MIN_value : INT_MIN = -2147483648.
Proof. reflexivity. Qed.

Lemma wrap_int_small (z : Z) :
  -2147483648 <= z <= 2147483647 -> wrap_int z = z.
Proof.
  unfold wrap_int, int_bits.
  change (2 ^ (32 - 1)) with 2147483648. change (2 ^ 32) with 4294967296.
  intros H. rewrite Z.mod_small; lia.
Qed.

Lemma int_incr_small (v : Z) : v < 2147483647 -> int_incr v = Some (v + 1).
Proof.
  intros H. unfold int_incr.
  destruct (Z.ltb_spec v INT_MAX) as [|Hge]; [reflexivity|].
  rewrite INT_MAX_value in Hge. lia.
Qed.

Lemma int_incr_inv (v w : Z) :
  int_incr v = Some w -> w = v + 1 /\ v < 2147483647.
Proof.
  unfold int_incr. destruct (Z.ltb_spec v INT_MAX) as [Hlt|]; intros E;
    [|discriminate].
  rewrite INT_MAX_value in Hlt. inversion E. split; [reflexivity|assumption].
Qed.

(** ** Runs *)

Section RunFacts.

Context {State : Type}.
Variable move : agent -> State -> option State.
Variable final : State -> bool.

Lemma reaches_trans (a b c : State) :
  reaches move a b -> reaches move b c -> reaches move a c.
Proof.
  intros Hab Hbc. induction Hbc as [|x y _ IH Hxy]; [assumption|].
  exact (reaches_more move a x y IH Hxy).
Qed.

Lemma reaches_schedule_gen (run : list agent -> State -> option State) :
  (forall s, run [] s = Some s) ->
  (forall a l s, run (a :: l) s
                 = match move a s with Some s' => run l s' | None => None end) ->
  forall l s s', run l s = Some s' -> reaches move s s'.
Proof.
  intros Hnil Hcons l. induction l as [|a l IH]; intros s s' E.
  - rewrite Hnil in E. inversion E. constructor.
  - rewrite Hcons in E. destruct (move a s) as [s1|] eqn:E1; [|discriminate].
    apply (reaches_trans s s1 s').
    + apply (reaches_more move s s s1); [constructor|]. exists a. exact E1.
    + apply IH. exact E.
Qed.

Lemma invariant_reaches (Inv : State -> Prop) :
  (forall a s s', Inv s -> move a s = Some s' -> Inv s') ->
  forall s s', Inv s -> reaches move s s' -> Inv s'.
Proof.
  intros Hstep s s' H0 Hr. induction Hr as [|x y _ IH [a Hxy]].
  - assumption.
  - exact (Hstep a x y IH Hxy).
Qed.

Lemma always_ends_weaken (P Q : State -> Prop) (s : State) :
  (forall x, P x -> Q x) ->
  always_ends move final P s -> always_ends move final Q s.
Proof.
  intros HPQ H. induction H as [s Hf Hp | s Hf Hex _ IH].
  - apply ends_now; auto.
  - apply ends_later; auto.
Qed.

(** A run to the end exists. *)
Lemma always_ends_run (P : State -> Prop) (s : State) :
  always_ends move final P s ->
  exists s', reaches move s s' /\ final s' = true /\ P s'.
Proof.
  intros H. induction H as [s Hf Hp | s Hf [s1 H1] _ IH].
  - exists s. split; [constructor | auto].
  - destruct (IH s1 H1) as [s' [Hr Hs']]. exists s'. split; [|exact Hs'].
    apply (reaches_trans s s1 s'); [|exact Hr].
    apply (reaches_more move s s s1); [constructor | exact H1].
Qed.

(** Every state a run passes through keeps the guarantee. *)
Lemma always_ends_reaches (P : State -> Prop) (s s' : State) :
  always_ends move final P s ->
  (forall x, final x = true -> forall a, move a x = None) ->
  reaches move s s' -> always_ends move final P s'.
Proof.
  intros H Hstuck Hr. induction Hr as [|x y _ IH [a Hxy]]; [assumption|].
  destruct IH as [Hf _ | _ _ Hall].
  - rewrite (Hstuck x Hf a) in Hxy. discriminate.
  - apply Hall. exists a. exact Hxy.
Qed.

Lemma always_ends_final (P : State -> Prop) (s : State) :
  always_ends move final P s ->
  always_ends move final (fun x => final x = true /\ P x) s.
Proof.
  intros H. induction H as [s Hf Hp | s Hf Hex _ IH].
  - apply ends_now; auto.
  - apply ends_later; auto.
Qed.

(** An invariant, progress and a decreasing count of actions left give
    termination in a state with [P]. *)
Lemma always_ends_by_measure
      (Inv P : State -> Prop) (left : State -> nat) :
  (forall a s s', Inv s -> move a s = Some s' ->
                  Inv s' /\ (left s' < left s)%nat) ->
  (forall s, Inv s -> final s = false -> exists s', steps_to move s s') ->
  (forall s, Inv s -> final s = true -> P s) ->
  forall s, Inv s -> always_ends move final P s.
Proof.
  intros Hstep Hprog Hfin s.
  remember (left s) as n eqn:En. revert s En.
  induction n as [n IH] using (well_founded_induction Nat.lt_wf_0).
  intros s En Hs. destruct (final s) eqn:Ef.
  - apply ends_now; auto.
  - apply ends_later; auto.
    intros s' [a Ha]. destruct (Hstep a s s' Hs Ha) as [Hs' Hlt].
    apply (IH (left s')); [lia | reflexivity | exact Hs'].
Qed.

End RunFacts.

(** ** Any counter class under [runThreads*] *)

Lemma occurrences_cons (e e' : event) (h : list event) :
  occurrences e (e' :: h)
  = (if event_eqb e e' then 1 else 0) + occurrences e h.
Proof.
  unfold occurrences. cbn [List.filter].
  destruct (event_eqb e e'); cbn [List.length]; lia.
Qed.

Lemma occurrences_nil (e : event) : occurrences e [] = 0.
Proof. reflexivity. Qed.

Ltac break_step E :=
  repeat match type of E with
    | context [if ?x <? ?y then _ else _] => destruct (Z.ltb_spec x y)
    | context [match ?x with _ => _ end] =>
        is_var x; destruct x; try discriminate
    | context [match ?x with _ => _ end] =>
        lazymatch x with
        | context [match _ with _ => _ end] => fail
        | _ => destruct x eqn:?; try discriminate
        end
    end.

Ltac log_arith :=
  repeat rewrite occurrences_cons; cbn [event_eqb tid_eqb]; intuition lia.

Section HarnessFacts.

Variable C : counter_class.

Lemma hinv_enter (o : obj C) : hinv (enter C o).
Proof.
  unfold hinv, thread_log, enter. simpl. repeat rewrite occurrences_nil. lia.
Qed.

Lemma hinv_step (a : agent) (s s' : hstate C) :
  hinv s -> hstep a s = Some s' -> hinv s'.
Proof.
  destruct s as [o th1 th2 c h]. unfold hinv, thread_log. simpl.
  intros Hinv E.
  destruct a as [|[|]]; simpl in E;
    unfold caller_step, worker_step, task_step, record in E; simpl in E.
  all: break_step E.
  all: inversion E; subst; clear E.
  all: try match goal with
           | H : int_incr _ = Some _ |- _ => apply int_incr_inv in H
           end.
  all: repeat match goal with
              | c : rpc |- _ => destruct c
              | th : thread _ |- _ => destruct th as [|[?|? ?|]|]
              end.
  all: simpl in *; try (exfalso; lia).
  all: log_arith.
Qed.

Variable rank : point C -> Z.
Hypothesis Hrank : rank_ok C rank.

Lemma actions_left_step (a : agent) (s s' : hstate C) :
  hinv s -> hstep a s = Some s' ->
  (actions_left rank s' < actions_left rank s)%nat.
Proof.
  destruct Hrank as [Hb Hd].
  destruct s as [o th1 th2 c h]. unfold hinv, actions_left. simpl.
  intros (Hs & W1 & W2 & _) E.
  destruct a as [|[|]]; simpl in E;
    unfold caller_step, worker_step, task_step, record in E; simpl in E.
  all: break_step E.
  all: inversion E; subst; clear E.
  all: repeat match goal with
              | H : int_incr _ = Some _ |- _ => apply int_incr_inv in H
              | H : increment_step _ _ _ _ = Some (_, Some _) |- _ =>
                  apply Hd in H
              | c : rpc |- _ => destruct c
              | th : thread _ |- _ => destruct th as [|[?|? ?|]|]
              end.
  all: cbn [thread_left worker_left caller_left shape wf_thread spawned
              joined thread1 thread2 caller] in *; try (exfalso; lia).
  all: pose proof (Hb (increment_entry C)).
  all: repeat match goal with
              | p : point C |- _ =>
                  lazymatch goal with
                  | _ : 0 <= rank p <= 4 |- _ => fail
                  | _ => pose proof (Hb p)
                  end
              end.
  all: lia.
Qed.

End HarnessFacts.

Ltac harness_cases E :=
  unfold hstep, caller_step, worker_step, task_step, record in E;
  cbn [get_thread counter thread1 thread2 caller history
       increment_step increment_entry obj point
       UnsafeCounter.class SafeCounterOnlyMutex.class
       SafeCounterAtomic.class TableAtomic.class] in E;
  unfold UnsafeCounter.step, SafeCounterOnlyMutex.step,
    SafeCounterAtomic.step, TableAtomic.step, atomic_fetch_add in E;
  cbn [snd fst] in E;
  break_step E; inversion E; subst; clear E;
  repeat match goal with
    | H : int_incr _ = Some _ |- _ => apply int_incr_inv in H
    | c : rpc |- _ => destruct c
    | th : thread _ |- _ => destruct th as [|[?|? ?|]|]
    end.

Ltac split_points :=
  repeat match goal with p : point _ |- _ => destruct p end.

Ltac harness_unfold :=
  cbn [shape wf_thread spawned joined done_calls in_call left_loop
       thread1 thread2 caller counter history get_thread
       UnsafeCounter.count SafeCounterOnlyMutex.count
       SafeCounterOnlyMutex.mtx SafeCounterAtomic.count
       SafeCounterAtomic.load read_count
       UnsafeCounter.class SafeCounterOnlyMutex.class
       SafeCounterAtomic.class TableAtomic.class
       unsafe_tmp holding credit mutex_tmp returned] in *.

(** ** The atomic counter under [runThreadsAtomic] *)

Lemma atomic_rank_ok : rank_ok SafeCounterAtomic.class atomic_rank.
Proof.
  split.
  - intros p. unfold atomic_rank. lia.
  - intros me [] o o' p' E. discriminate.
Qed.

Lemma atomic_inv_step (a : agent) (s s' : hstate SafeCounterAtomic.class) :
  hinv s -> atomic_inv s -> hstep a s = Some s' -> atomic_inv s'.
Proof.
  destruct s as [[n] th1 th2 c h]. unfold hinv, atomic_inv.
  intros (Hs & W1 & W2 & _) Hn E. harness_unfold.
  destruct a as [|[|]]; harness_cases E; harness_unfold;
    try (exfalso; lia); try lia.
  all: rewrite wrap_int_small; lia.
Qed.

Ltac split_loops :=
  repeat match goal with
    | W : 0 <= ?i <= 1000 |- _ =>
        let H := fresh "Hloop" in
        destruct (Z.ltb_spec i 1000) as [H|H]; revert W
    end;
  intros.

Ltac can_move a :=
  eexists; exists a;
  unfold hstep, caller_step, worker_step, task_step, record;
  cbn [get_thread counter thread1 thread2 caller history
       increment_step increment_entry obj point
       UnsafeCounter.class SafeCounterOnlyMutex.class
       SafeCounterAtomic.class TableAtomic.class];
  unfold UnsafeCounter.step, SafeCounterOnlyMutex.step,
    SafeCounterAtomic.step, TableAtomic.step, atomic_fetch_add;
  cbn [snd fst SafeCounterOnlyMutex.mtx SafeCounterOnlyMutex.count];
  repeat match goal with
    | |- context [if ?x <? ?y then _ else _] =>
        destruct (Z.ltb_spec x y); [try (exfalso; lia) | try (exfalso; lia)]
    | |- context [int_incr ?v] => rewrite (int_incr_small v) by lia
    end;
  reflexivity.

Ltac some_move :=
  first [ can_move Caller | can_move (Worker T1) | can_move (Worker T2) ].

Lemma atomic_progress (s : hstate SafeCounterAtomic.class) :
  hinv s -> atomic_inv s -> returned s = false ->
  exists s', steps_to hstep s s'.
Proof.
  destruct s as [[n] th1 th2 c h]. unfold hinv, atomic_inv.
  intros (Hs & W1 & W2 & _) Hn Hr.
  destruct c; destruct th1 as [|[?|? []|]|]; destruct th2 as [|[?|? []|]|];
    harness_unfold; try discriminate; try (exfalso; lia).
  all: split_loops; some_move.
Qed.

Lemma atomic_final (s : hstate SafeCounterAtomic.class) :
  hinv s -> atomic_inv s -> returned s = true ->
  SafeCounterAtomic.load (counter s) = 2000.
Proof.
  destruct s as [[n] th1 th2 c h]. unfold hinv, atomic_inv.
  intros (Hs & _) Hn Hr.
  destruct c; try discriminate.
  destruct th1 as [|[?|? ?|]|]; destruct th2 as [|[?|? ?|]|];
    harness_unfold; lia.
Qed.

Lemma atomic_enter : atomic_inv (runThreadsAtomic SafeCounterAtomic.fresh).
Proof. reflexivity. Qed.

Lemma atomic_always_ends :
  always_ends hstep returned
    (fun s : hstate SafeCounterAtomic.class =>
       hinv s /\ SafeCounterAtomic.load (counter s) = 2000)
    (runThreadsAtomic SafeCounterAtomic.fresh).
Proof.
  apply (always_ends_by_measure hstep returned
           (fun s => hinv s /\ atomic_inv s) _
           (@actions_left SafeCounterAtomic.class atomic_rank)).
  - intros a s s' [H1 H2] E. split; [split|].
    + exact (hinv_step _ a s s' H1 E).
    + exact (atomic_inv_step a s s' H1 H2 E).
    + exact (actions_left_step _ _ atomic_rank_ok a s s' H1 E).
  - intros s [H1 H2]. apply atomic_progress; assumption.
  - intros s [H1 H2] Hr. split; [assumption|]. apply atomic_final; assumption.
  - split; [apply hinv_enter | apply atomic_enter].
Qed.

(** ** The unprotected counter under [runThreadsUnsafe] *)

Lemma unsafe_rank_ok : rank_ok UnsafeCounter.class unsafe_rank.
Proof.
  split.
  - intros []; simpl; lia.
  - intros me [|tmp] o o' p' E; simpl in E.
    + inversion E. simpl. lia.
    + destruct (int_incr tmp); discriminate.
Qed.

Lemma unsafe_inv_step (a : agent) (s s' : hstate UnsafeCounter.class) :
  hinv s -> unsafe_inv s -> hstep a s = Some s' -> unsafe_inv s'.
Proof.
  destruct s as [[n] th1 th2 c h]. unfold hinv, unsafe_inv.
  intros (Hs & W1 & W2 & _) Hn E. harness_unfold.
  destruct a as [|[|]]; harness_cases E; split_points; harness_unfold;
    try (exfalso; lia); lia.
Qed.

Lemma unsafe_progress (s : hstate UnsafeCounter.class) :
  hinv s -> unsafe_inv s -> returned s = false ->
  exists s', steps_to hstep s s'.
Proof.
  destruct s as [[n] th1 th2 c h]. unfold hinv, unsafe_inv.
  intros (Hs & W1 & W2 & _) Hn Hr.
  destruct c; destruct th1 as [|[?|? []|]|]; destruct th2 as [|[?|? []|]|];
    harness_unfold; try discriminate; try (exfalso; lia).
  all: split_loops; some_move.
Qed.

Lemma unsafe_final (s : hstate UnsafeCounter.class) :
  hinv s -> unsafe_inv s -> returned s = true ->
  1 <= UnsafeCounter.count (counter s) <= 2000.
Proof.
  destruct s as [[n] th1 th2 c h]. unfold hinv, unsafe_inv.
  intros (Hs & _) Hn Hr.
  destruct c; try discriminate.
  destruct th1 as [|[?|? ?|]|]; destruct th2 as [|[?|? ?|]|];
    harness_unfold; lia.
Qed.

Lemma unsafe_enter : unsafe_inv (runThreadsUnsafe UnsafeCounter.fresh).
Proof. unfold unsafe_inv. simpl. lia. Qed.

Lemma unsafe_always_ends :
  always_ends hstep returned
    (fun s : hstate UnsafeCounter.class =>
       hinv s /\ 1 <= UnsafeCounter.count (counter s) <= 2000)
    (runThreadsUnsafe UnsafeCounter.fresh).
Proof.
  apply (always_ends_by_measure hstep returned
           (fun s => hinv s /\ unsafe_inv s) _
           (@actions_left UnsafeCounter.class unsafe_rank)).
  - intros a s s' [H1 H2] E. split; [split|].
    + exact (hinv_step _ a s s' H1 E).
    + exact (unsafe_inv_step a s s' H1 H2 E).
    + exact (actions_left_step _ _ unsafe_rank_ok a s s' H1 E).
  - intros s [H1 H2]. apply unsafe_progress; assumption.
  - intros s [H1 H2] Hr. split; [assumption|]. apply unsafe_final; assumption.
  - split; [apply hinv_enter | apply unsafe_enter].
Qed.

(** ** The counter behind a mutex under [runThreadsSafe] *)

Lemma mutex_rank_ok : rank_ok SafeCounterOnlyMutex.class mutex_rank.
Proof.
  split.
  - intros []; simpl; lia.
  - intros me [| |tmp|] [n m] o' p' E; simpl in E.
    + destruct m; inversion E. simpl. lia.
    + inversion E. simpl. lia.
    + destruct (int_incr tmp); inversion E. simpl. lia.
    + discriminate.
Qed.

Ltac owner_compute :=
  cbv beta iota delta [owner holding Z.eqb Pos.eqb] in *.

Lemma mutex_inv_step (a : agent) (s s' : hstate SafeCounterOnlyMutex.class) :
  hinv s -> mutex_inv s -> hstep a s = Some s' -> mutex_inv s'.
Proof.
  destruct s as [[n m] th1 th2 c h]. unfold hinv, mutex_inv.
  intros (Hs & W1 & W2 & _) Hn E. harness_unfold.
  destruct a as [|[|]]; harness_cases E; split_points; harness_unfold;
    try (exfalso; lia).
  all: owner_compute; cbn [SafeCounterOnlyMutex.mtx] in *.
  all: try (exfalso; intuition congruence).
  all: intuition (try congruence; try lia).
Qed.

Lemma mutex_progress (s : hstate SafeCounterOnlyMutex.class) :
  hinv s -> mutex_inv s -> returned s = false ->
  exists s', steps_to hstep s s'.
Proof.
  destruct s as [[n m] th1 th2 c h]. unfold hinv, mutex_inv.
  intros (Hs & W1 & W2 & _) (Hn & Hh & Hm & T1 & T2) Hr.
  destruct c; destruct th1 as [|[?|? []|]|]; destruct th2 as [|[?|? []|]|];
    harness_unfold; try discriminate; try (exfalso; lia).
  all: owner_compute; subst m.
  all: split_loops; some_move.
Qed.

Lemma mutex_final (s : hstate SafeCounterOnlyMutex.class) :
  hinv s -> mutex_inv s -> returned s = true ->
  SafeCounterOnlyMutex.count (counter s) = 2000.
Proof.
  destruct s as [[n m] th1 th2 c h]. unfold hinv, mutex_inv.
  intros (Hs & _) Hn Hr.
  destruct c; try discriminate.
  destruct th1 as [|[?|? ?|]|]; destruct th2 as [|[?|? ?|]|];
    harness_unfold; lia.
Qed.

Lemma mutex_enter : mutex_inv (runThreadsSafe SafeCounterOnlyMutex.fresh).
Proof. unfold mutex_inv. cbn. intuition lia. Qed.

Lemma mutex_always_ends :
  always_ends hstep returned
    (fun s : hstate SafeCounterOnlyMutex.class =>
       hinv s /\ SafeCounterOnlyMutex.count (counter s) = 2000)
    (runThreadsSafe SafeCounterOnlyMutex.fresh).
Proof.
  apply (always_ends_by_measure hstep returned
           (fun s => hinv s /\ mutex_inv s) _
           (@actions_left SafeCounterOnlyMutex.class mutex_rank)).
  - intros a s s' [H1 H2] E. split; [split|].
    + exact (hinv_step _ a s s' H1 E).
    + exact (mutex_inv_step a s s' H1 H2 E).
    + exact (actions_left_step _ _ mutex_rank_ok a s s' H1 E).
  - intros s [H1 H2]. apply mutex_progress; assumption.
  - intros s [H1 H2] Hr. split; [assumption|]. apply mutex_final; assumption.
  - split; [apply hinv_enter | apply mutex_enter].
Qed.

(** ** [main] *)

Lemma main_step_start (a : agent) (out : list string) (s' : program) :
  main_step a (mkP Start out) = Some s' ->
  s' = mkP (Demo1 (runThreadsUnsafe UnsafeCounter.fresh)) (out ++ [banner]).
Proof.
  unfold main_step. cbn [control console]. destruct a; intros E; inversion E.
  reflexivity.
Qed.

Section MainRuns.

Variable Q : program -> Prop.

Lemma demo3_ends (P : hstate SafeCounterAtomic.class -> Prop)
      (u : UnsafeCounter.t) (m : SafeCounterOnlyMutex.t)
      (out : list string) (h : hstate SafeCounterAtomic.class) :
  always_ends hstep returned P h ->
  (forall h', returned h' = true -> P h' ->
              Q (mkP (Exited u m (counter h') 0)
                     (out ++ [(atomic_text
                                 ++ show_int
                                      (SafeCounterAtomic.load (counter h')))
                              %string]))) ->
  always_ends main_step exited Q (mkP (Demo3 u m h) out).
Proof.
  intros H HQ. induction H as [h Hf Hp | h Hf [h1 [a1 H1]] _ IH].
  - apply ends_later; [reflexivity | |].
    + eexists. exists Caller. unfold main_step. cbn [control console].
      rewrite Hf. reflexivity.
    + intros s' [a E]. unfold main_step in E. cbn [control console] in E.
      rewrite Hf in E. destruct a; inversion E.
      apply ends_now; [reflexivity|]. apply HQ; assumption.
  - apply ends_later; [reflexivity | |].
    + eexists. exists a1. unfold main_step. cbn [control console].
      rewrite Hf, H1. reflexivity.
    + intros s' [a E]. unfold main_step in E. cbn [control console] in E.
      rewrite Hf in E. destruct (hstep a h) as [h'|] eqn:Eh; inversion E.
      apply IH. exists a. exact Eh.
Qed.

Lemma demo2_ends (P : hstate SafeCounterOnlyMutex.class -> Prop)
      (u : UnsafeCounter.t)
      (out : list string) (h : hstate SafeCounterOnlyMutex.class) :
  always_ends hstep returned P h ->
  (forall h', returned h' = true -> P h' ->
              always_ends main_step exited Q
                (mkP (Demo3 u (counter h')
                            (runThreadsAtomic SafeCounterAtomic.fresh))
                     (out ++ [(mutex_text
                                 ++ show_int
                                      (SafeCounterOnlyMutex.count
                                         (counter h')))
                              %string]))) ->
  always_ends main_step exited Q (mkP (Demo2 u h) out).
Proof.
  intros H HQ. induction H as [h Hf Hp | h Hf [h1 [a1 H1]] _ IH].
  - apply ends_later; [reflexivity | |].
    + eexists. exists Caller. unfold main_step. cbn [control console].
      rewrite Hf. reflexivity.
    + intros s' [a E]. unfold main_step in E. cbn [control console] in E.
      rewrite Hf in E. destruct a; inversion E.
      apply HQ; assumption.
  - apply ends_later; [reflexivity | |].
    + eexists. exists a1. unfold main_step. cbn [control console].
      rewrite Hf, H1. reflexivity.
    + intros s' [a E]. unfold main_step in E. cbn [control console] in E.
      rewrite Hf in E. destruct (hstep a h) as [h'|] eqn:Eh; inversion E.
      apply IH. exists a. exact Eh.
Qed.

Lemma demo1_ends (P : hstate UnsafeCounter.class -> Prop)
      (out : list string) (h : hstate UnsafeCounter.class) :
  always_ends hstep returned P h ->
  (forall h', returned h' = true -> P h' ->
              always_ends main_step exited Q
                (mkP (Demo2 (counter h')
                            (runThreadsSafe SafeCounterOnlyMutex.fresh))
                     (out ++ [(unsafe_text
                                 ++ show_int
                                      (UnsafeCounter.count (counter h')))
                              %string]))) ->
  always_ends main_step exited Q (mkP (Demo1 h) out).
Proof.
  intros H HQ. induction H as [h Hf Hp | h Hf [h1 [a1 H1]] _ IH].
  - apply ends_later; [reflexivity | |].
    + eexists. exists Caller. unfold main_step. cbn [control console].
      rewrite Hf. reflexivity.
    + intros s' [a E]. unfold main_step in E. cbn [control console] in E.
      rewrite Hf in E. destruct a; inversion E.
      apply HQ; assumption.
  - apply ends_later; [reflexivity | |].
    + eexists. exists a1. unfold main_step. cbn [control console].
      rewrite Hf, H1. reflexivity.
    + intros s' [a E]. unfold main_step in E. cbn [control console] in E.
      rewrite Hf in E. destruct (hstep a h) as [h'|] eqn:Eh; inversion E.
      apply IH. exists a. exact Eh.
Qed.

End MainRuns.

(** Every run of the program ends, after the three demonstrations, with the
    four lines on the console and the three counters in [main]'s frame. *)
Lemma main_always_ends :
  always_ends main_step exited
    (fun s => exists u, 1 <= u <= 2000 /\ outcome u 2000 2000 s) boot.
Proof.
  apply ends_later; [reflexivity | |].
  - eexists. exists Caller. reflexivity.
  - intros s' [a E]. apply main_step_start in E. subst s'.
    apply (demo1_ends _ _ _ _ unsafe_always_ends). intros h1 _ [_ Hu].
    apply (demo2_ends _ _ _ _ _ mutex_always_ends). intros h2 _ [_ Hm].
    apply (demo3_ends _ _ _ _ _ _ atomic_always_ends). intros h3 _ [_ Ha].
    exists (UnsafeCounter.count (counter h1)). split; [exact Hu|].
    exists (counter h1), (counter h2), (counter h3).
    cbn [control console]. rewrite Hm, Ha. repeat split.
Qed.

(** ** Calls of [increment] one after the other *)

Lemma wrap_int_succ (z : Z) : wrap_int (wrap_int z + 1) = wrap_int (z + 1).
Proof.
  unfold wrap_int, int_bits.
  change (2 ^ (32 - 1)) with 2147483648. change (2 ^ 32) with 4294967296.
  replace ((z + 2147483648) mod 4294967296 - 2147483648 + 1 + 2147483648)
    with ((z + 2147483648) mod 4294967296 + 1) by lia.
  rewrite Zplus_mod_idemp_l. f_equal. f_equal. lia.
Qed.

Lemma unsafe_increment (v : Z) :
  increment UnsafeCounter.class (UnsafeCounter.mk v)
  = option_map UnsafeCounter.mk (int_incr v).
Proof.
  unfold increment. cbn. destruct (int_incr v); reflexivity.
Qed.

Lemma mutex_increment (v : Z) :
  increment SafeCounterOnlyMutex.class (SafeCounterOnlyMutex.mk v None)
  = option_map (fun w => SafeCounterOnlyMutex.mk w None) (int_incr v).
Proof.
  unfold increment. cbn. destruct (int_incr v); reflexivity.
Qed.

Lemma atomic_increment (v : Z) :
  increment SafeCounterAtomic.class (SafeCounterAtomic.mk v)
  = Some (SafeCounterAtomic.mk (wrap_int (v + 1))).
Proof. reflexivity. Qed.

Lemma increments_succ (C : counter_class) (n : N) (o : obj C) :
  increments C (N.succ n) o
  = match increments C n o with
    | Some o' => increment C o'
    | None => None
    end.
Proof. unfold increments. rewrite N.iter_succ. reflexivity. Qed.

Lemma unsafe_increments (n : N) :
  increments UnsafeCounter.class n UnsafeCounter.fresh
  = if Z.of_N n <=? 2147483647
    then Some (UnsafeCounter.mk (Z.of_N n)) else None.
Proof.
  induction n as [|n IH] using N.peano_ind; [reflexivity|].
  rewrite increments_succ, IH, N2Z.inj_succ.
  destruct (Z.leb_spec (Z.of_N n) 2147483647);
    destruct (Z.leb_spec (Z.succ (Z.of_N n)) 2147483647); try lia.
  - rewrite unsafe_increment, int_incr_small by lia. reflexivity.
  - rewrite unsafe_increment. unfold int_incr. rewrite INT_MAX_value.
    destruct (Z.ltb_spec (Z.of_N n) 2147483647); [lia | reflexivity].
  - reflexivity.
Qed.

Lemma mutex_increments (n : N) :
  increments SafeCounterOnlyMutex.class n SafeCounterOnlyMutex.fresh
  = if Z.of_N n <=? 2147483647
    then Some (SafeCounterOnlyMutex.mk (Z.of_N n) None) else None.
Proof.
  induction n as [|n IH] using N.peano_ind; [reflexivity|].
  rewrite increments_succ, IH, N2Z.inj_succ.
  destruct (Z.leb_spec (Z.of_N n) 2147483647);
    destruct (Z.leb_spec (Z.succ (Z.of_N n)) 2147483647); try lia.
  - rewrite mutex_increment, int_incr_small by lia. reflexivity.
  - rewrite mutex_increment. unfold int_incr. rewrite INT_MAX_value.
    destruct (Z.ltb_spec (Z.of_N n) 2147483647); [lia | reflexivity].
  - reflexivity.
Qed.

Lemma atomic_increments (n : N) :
  increments SafeCounterAtomic.class n SafeCounterAtomic.fresh
  = Some (SafeCounterAtomic.mk (wrap_int (Z.of_N n))).
Proof.
  induction n as [|n IH] using N.peano_ind; [reflexivity|].
  rewrite increments_succ, IH, N2Z.inj_succ, atomic_increment.
  rewrite wrap_int_succ. reflexivity.
Qed.

(** ** Schedules are runs *)

Lemma run_schedule_reaches (C : counter_class) (l : list agent)
      (s s' : hstate C) :
  run_schedule l s = Some s' -> reaches hstep s s'.
Proof.
  apply (reaches_schedule_gen hstep run_schedule); reflexivity.
Qed.


Lemma mutex_midway_run :
  run_schedule mutex_midway (runThreadsSafe SafeCounterOnlyMutex.fresh)
  = Some mutex_midway_state.
Proof. reflexivity. Qed.


(** ** What holds all along a run *)

Lemma hinv_reaches (C : counter_class) (o : obj C) (s : hstate C) :
  reaches hstep (enter C o) s -> hinv s.
Proof.
  apply (invariant_reaches hstep hinv).
  - intros a x y. apply hinv_step.
  - apply hinv_enter.
Qed.

Lemma unsafe_reaches (s : hstate UnsafeCounter.class) :
  reaches hstep (runThreadsUnsafe UnsafeCounter.fresh) s ->
  hinv s /\ unsafe_inv s.
Proof.
  apply (invariant_reaches hstep (fun x => hinv x /\ unsafe_inv x)).
  - intros a x y [H1 H2] E. split.
    + exact (hinv_step _ a x y H1 E).
    + exact (unsafe_inv_step a x y H1 H2 E).
  - split; [apply hinv_enter | apply unsafe_enter].
Qed.

Lemma mutex_reaches (s : hstate SafeCounterOnlyMutex.class) :
  reaches hstep (runThreadsSafe SafeCounterOnlyMutex.fresh) s ->
  hinv s /\ mutex_inv s.
Proof.
  apply (invariant_reaches hstep (fun x => hinv x /\ mutex_inv x)).
  - intros a x y [H1 H2] E. split.
    + exact (hinv_step _ a x y H1 E).
    + exact (mutex_inv_step a x y H1 H2 E).
  - split; [apply hinv_enter | apply mutex_enter].
Qed.

Lemma atomic_reaches (s : hstate SafeCounterAtomic.class) :
  reaches hstep (runThreadsAtomic SafeCounterAtomic.fresh) s ->
  hinv s /\ atomic_inv s.
Proof.
  apply (invariant_reaches hstep (fun x => hinv x /\ atomic_inv x)).
  - intros a x y [H1 H2] E. split.
    + exact (hinv_step _ a x y H1 E).
    + exact (atomic_inv_step a x y H1 H2 E).
  - split; [apply hinv_enter | apply atomic_enter].
Qed.

Lemma hinv_completed (C : counter_class) (s : hstate C) :
  hinv s -> returned s = true -> completed s.
Proof.
  destruct s as [o th1 th2 c h]. unfold hinv, thread_log, completed.
  intros (Hs & _ & _ & L1 & L2) Hr. destruct c; try discriminate.
  destruct th1 as [|[?|? ?|]|]; destruct th2 as [|[?|? ?|]|];
    harness_unfold; try (exfalso; lia).
  split; [reflexivity|]. split; [reflexivity|].
  intros []; lia.
Qed.

Lemma on_its_own_step (a : agent) (s s' : program) :
  on_its_own s -> main_step a s = Some s' -> on_its_own s'.
Proof.
  destruct s as [[|h|u h|u m h|u m x c] out]; unfold on_its_own, main_step;
    cbn [control console]; intros H E.
  - destruct a; inversion E. constructor.
  - destruct (returned h).
    + destruct a; inversion E. constructor.
    + destruct (hstep a h) as [h'|] eqn:Eh; inversion E.
      apply (reaches_more hstep _ h h' H). exists a. exact Eh.
  - destruct (returned h).
    + destruct a; inversion E. constructor.
    + destruct (hstep a h) as [h'|] eqn:Eh; inversion E.
      apply (reaches_more hstep _ h h' H). exists a. exact Eh.
  - destruct (returned h).
    + destruct a; inversion E. exact I.
    + destruct (hstep a h) as [h'|] eqn:Eh; inversion E.
      apply (reaches_more hstep _ h h' H). exists a. exact Eh.
  - discriminate.
Qed.

Lemma ends_with_run (C : counter_class) (sched : list agent)
      (s : hstate C) (v : Z) :
  ends_with C sched s v = true ->
  exists s', reaches hstep s s' /\ returned s' = true
             /\ read_count C (counter s') = v.
Proof.
  unfold ends_with. destruct (run_schedule sched s) as [s'|] eqn:E;
    [|discriminate].
  intros H. apply andb_true_iff in H. destruct H as [Hr Hv].
  exists s'. split; [exact (run_schedule_reaches C sched s s' E)|].
  split; [exact Hr | apply Z.eqb_eq; exact Hv].
Qed.

(** ** What a run has behind it *)

Lemma always_ends_from {State : Type}
      (move : agent -> State -> option State) (final : State -> bool)
      (P : State -> Prop) (s0 s : State) :
  reaches move s0 s ->
  always_ends move final P s ->
  always_ends move final (fun x => reaches move s0 x /\ P x) s.
Proof.
  intros Hr H. revert Hr. induction H as [s Hf Hp | s Hf Hex _ IH]; intros Hr.
  - apply ends_now; auto.
  - apply ends_later; auto.
    intros s' Hs'. apply IH; [exact Hs'|].
    exact (reaches_more move s0 s s' Hr Hs').
Qed.

Lemma always_ends_complete (C : counter_class) (P : hstate C -> Prop) :
  always_ends hstep returned P (enter C (construct C)) ->
  always_ends hstep returned (fun h => complete_run C h /\ P h)
              (enter C (construct C)).
Proof.
  intros H.
  apply (always_ends_weaken hstep returned
           (fun h => returned h = true
                     /\ reaches hstep (enter C (construct C)) h /\ P h)).
  - intros h (Hf & Hr & Hp). split; [split; assumption | exact Hp].
  - apply always_ends_final.
    apply (always_ends_from hstep returned P); [constructor | exact H].
Qed.


Lemma trail_step (a : agent) (s s' : program) :
  reaches main_step boot s -> trail s -> main_step a s = Some s' -> trail s'.
Proof.
  intros Hr Ht E.
  assert (R1 : reaches main_step s s').
  { apply (reaches_more main_step s s s'); [constructor|]. exists a. exact E. }
  destruct s as [[|h|u h|u m h|u m x c] out]; unfold trail in Ht;
    cbn [control] in Ht; unfold main_step in E; cbn [control console] in E.
  - inversion Ht; subst. destruct a; inversion E. reflexivity.
  - inversion Ht; subst. destruct (returned h) eqn:Hf.
    + destruct a; inversion E; subst s'. unfold trail. cbn [control].
      exists h. split; [exact Hr|]. split; [exact Hf|].
      split; [exact R1 | reflexivity].
    + destruct (hstep a h) as [h'|]; inversion E. reflexivity.
  - destruct Ht as (h1 & B1 & F1 & P1 & Es). destruct (returned h) eqn:Hf.
    + destruct a; inversion E; subst s'. unfold trail. cbn [control].
      inversion Es; subst. exists h1, h.
      split; [exact B1|]. split; [exact F1|]. split; [exact P1|].
      split; [exact Hf|]. split; [exact R1 | reflexivity].
    + destruct (hstep a h) as [h'|]; inversion E; subst s'.
      unfold trail. cbn [control]. inversion Es; subst. exists h1.
      split; [exact B1|]. split; [exact F1|].
      split; [exact (reaches_trans main_step _ _ _ P1 R1) | reflexivity].
  - destruct Ht as (h1 & h2 & B1 & F1 & P1 & F2 & P2 & Es).
    destruct (returned h) eqn:Hf.
    + destruct a; inversion E; subst s'. unfold trail. cbn [control].
      inversion Es; subst. exists h1, h2, h.
      split; [|reflexivity].
      unfold went_through. repeat split; try assumption.
      unfold main_step, in_third. cbn [control console]. rewrite Hf.
      reflexivity.
    + destruct (hstep a h) as [h'|]; inversion E; subst s'.
      unfold trail. cbn [control]. inversion Es; subst. exists h1, h2.
      split; [exact B1|]. split; [exact F1|]. split; [exact P1|].
      split; [exact F2|].
      split; [exact (reaches_trans main_step _ _ _ P2 R1) | reflexivity].
  - discriminate.
Qed.

Lemma trail_reaches (s : program) : reaches main_step boot s -> trail s.
Proof.
  intros Hr. induction Hr as [|s1 s2 Hr1 IH [a E]]; [reflexivity|].
  exact (trail_step a s1 s2 Hr1 IH E).
Qed.

Lemma went_through_complete
      (h1 : hstate UnsafeCounter.class)
      (h2 : hstate SafeCounterOnlyMutex.class)
      (h3 : hstate SafeCounterAtomic.class) :
  went_through h1 h2 h3 ->
  complete_run UnsafeCounter.class h1
  /\ complete_run SafeCounterOnlyMutex.class h2
  /\ complete_run SafeCounterAtomic.class h3.
Proof.
  intros (B1 & F1 & P1 & F2 & P2 & F3 & _).
  assert (B2 := reaches_trans main_step _ _ _ B1 P1).
  assert (B3 := reaches_trans main_step _ _ _ B2 P2).
  split; [|split]; (split; [|assumption]).
  - exact (invariant_reaches main_step on_its_own on_its_own_step boot _ I B1).
  - exact (invariant_reaches main_step on_its_own on_its_own_step boot _ I B2).
  - exact (invariant_reaches main_step on_its_own on_its_own_step boot _ I B3).
Qed.

(** Every run of the program ends at its exit, having gone through the
    three calls in turn; the counters those runs ended with are the
    objects of [main]'s frame and their values the numbers written. *)
Lemma main_always_ends_runs :
  always_ends main_step exited
    (fun s =>
       exists (h1 : hstate UnsafeCounter.class)
              (h2 : hstate SafeCounterOnlyMutex.class)
              (h3 : hstate SafeCounterAtomic.class),
         went_through h1 h2 h3 /\ s = at_exit h1 h2 h3)
    boot.
Proof.
  apply (always_ends_weaken main_step exited
           (fun s => exited s = true
                     /\ reaches main_step boot s
                     /\ exists u, 1 <= u <= 2000 /\ outcome u 2000 2000 s)).
  - intros s (Hf & Hr & _). pose proof (trail_reaches s Hr) as Ht.
    unfold trail in Ht. unfold exited in Hf.
    destruct (control s); try discriminate Hf. exact Ht.
  - apply always_ends_final.
    apply (always_ends_from main_step exited _ boot boot);
      [constructor | exact main_always_ends].
Qed.

(** [main] goes through its stages one by one. *)
Lemma stage_step (a : agent) (s s' : program) :
  main_step a s = Some s' ->
  (stage s' = stage s /\ demo_returned s = Some false)
  \/ (stage s' = stage s + 1
      /\ (stage s = 0 \/ demo_returned s = Some true)).
Proof.
  destruct s as [[|h|u h|u m h|u m x c] out];
    unfold main_step, stage, demo_returned; cbn [control console];
    intros E; try discriminate.
  - destruct a; inversion E. right. auto.
  - destruct (returned h).
    + destruct a; inversion E. right. auto.
    + destruct (hstep a h); inversion E. left. auto.
  - destruct (returned h).
    + destruct a; inversion E. right. auto.
    + destruct (hstep a h); inversion E. left. auto.
  - destruct (returned h).
    + destruct a; inversion E. right. auto.
    + destruct (hstep a h); inversion E. left. auto.
Qed.

Lemma console_step (a : agent) (s s' : program) :
  main_step a s = Some s' ->
  (console s' = console s /\ demo_returned s = Some false)
  \/ (exists line, console s' = console s ++ [line]
                   /\ (stage s = 0 \/ demo_returned s = Some true)).
Proof.
  destruct s as [[|h|u h|u m h|u m x c] out];
    unfold main_step, stage, demo_returned; cbn [control console];
    intros E; try discriminate.
  - destruct a; inversion E. right. eexists. split; [reflexivity | auto].
  - destruct (returned h).
    + destruct a; inversion E. right. eexists. split; [reflexivity | auto].
    + destruct (hstep a h); inversion E. left. auto.
  - destruct (returned h).
    + destruct a; inversion E. right. eexists. split; [reflexivity | auto].
    + destruct (hstep a h); inversion E. left. auto.
  - destruct (returned h).
    + destruct a; inversion E. right. eexists. split; [reflexivity | auto].
    + destruct (hstep a h); inversion E. left. auto.
Qed.


(* ================================================================= *)
(** * The claims *)

(** C1.  In the locked and in the atomic demonstration, whatever the
    scheduler does with the two workers of 1000 increments each, the run
    comes to its end, both workers joined, and the counter then holds
    exactly 2000. *)
Theorem locked_and_atomic_give_2000 :
  always_ends hstep returned
    (fun s : hstate SafeCounterOnlyMutex.class =>
       thread1 s = Joined /\ thread2 s = Joined
       /\ SafeCounterOnlyMutex.count (counter s) = 2000)
    (runThreadsSafe SafeCounterOnlyMutex.fresh)
  /\ always_ends hstep returned
       (fun s : hstate SafeCounterAtomic.class =>
          thread1 s = Joined /\ thread2 s = Joined
          /\ SafeCounterAtomic.load (counter s) = 2000)
       (runThreadsAtomic SafeCounterAtomic.fresh).
Proof.
  split.
  - apply (always_ends_weaken hstep returned _ _ _)
      with (2 := always_ends_final _ _ _ _ mutex_always_ends).
    intros s [Hr [Hi Hv]].
    destruct (hinv_completed _ s Hi Hr) as (J1 & J2 & _). auto.
  - apply (always_ends_weaken hstep returned _ _ _)
      with (2 := always_ends_final _ _ _ _ atomic_always_ends).
    intros s [Hr [Hi Hv]].
    destruct (hinv_completed _ s Hi Hr) as (J1 & J2 & _). auto.
Qed.

(** C2.  In the unprotected demonstration every run comes to its end with a
    counter between 1 and 2000, hence never negative and never above 2000;
    the value is not the same in all runs: one schedule leaves 2000, another
    leaves 1000. *)
Theorem unprotected_within_1_and_2000 :
  always_ends hstep returned
    (fun s : hstate UnsafeCounter.class =>
       1 <= UnsafeCounter.count (counter s) <= 2000)
    (runThreadsUnsafe UnsafeCounter.fresh)
  /\ (exists s, reaches hstep (runThreadsUnsafe UnsafeCounter.fresh) s
                /\ returned s = true
                /\ UnsafeCounter.count (counter s) = 2000)
  /\ (exists s, reaches hstep (runThreadsUnsafe UnsafeCounter.fresh) s
                /\ returned s = true
                /\ UnsafeCounter.count (counter s) = 1000).
Proof.
  split; [|split].
  - apply (always_ends_weaken hstep returned _ _ _)
      with (2 := unsafe_always_ends).
    intros s [_ Hv]. exact Hv.
  - apply (ends_with_run UnsafeCounter.class
             (sequential_schedule (Z.to_nat 3001))).
    vm_compute. reflexivity.
  - apply (ends_with_run UnsafeCounter.class
             (lockstep_schedule (Z.to_nat 3001))).
    vm_compute. reflexivity.
Qed.





(** C5.  [increment] of the atomic counter is one action: from its entry
    point it adds one to whatever the counter holds at that moment (with
    wrap-around) and returns; it is never made to wait, the object having
    nothing but [count].  Hence along every run the counter is the number of
    calls that have returned.  The table's "atomic load, +1, atomic store",
    taken as separate operations, does not give this: it has a run that
    ends with 1000. *)
Theorem atomic_increment_is_one_action :
  (forall me p o,
      SafeCounterAtomic.step me p o
      = Some (SafeCounterAtomic.mk (wrap_int (SafeCounterAtomic.count o + 1)),
              None))
  /\ (forall o, o = SafeCounterAtomic.mk (SafeCounterAtomic.load o))
  /\ (forall s, reaches hstep (runThreadsAtomic SafeCounterAtomic.fresh) s ->
                SafeCounterAtomic.load (counter s)
                = occurrences (EvRet T1) (history s)
                  + occurrences (EvRet T2) (history s))
  /\ (exists s, reaches hstep (enter TableAtomic.class SafeCounterAtomic.fresh) s
                /\ returned s = true
                /\ SafeCounterAtomic.load (counter s) = 1000).
Proof.
  split; [|split; [|split]].
  - intros me [] o. reflexivity.
  - intros [n]. reflexivity.
  - intros s Hr. destruct (atomic_reaches s Hr) as [Hi Ha].
    destruct Hi as (_ & _ & _ & (_ & _ & R1 & _) & (_ & _ & R2 & _)).
    unfold atomic_inv in Ha. unfold SafeCounterAtomic.load.
    rewrite R1, R2. exact Ha.
  - apply (ends_with_run TableAtomic.class
             (lockstep_schedule (Z.to_nat 3001))).
    vm_compute. reflexivity.
Qed.



(** C7.  Every run of the program ends having gone through the three calls
    in turn, each a complete run of its demonstration; the console then
    holds the banner and, for the three demonstrations in turn, one line
    made of the label, [" Value (Expected 2000): "] and the value the
    counter of that run ended with.  Each action of the program leaves the
    console as it is or adds one line to it, and it adds one only between
    the calls; the console and the objects of [main]'s frame are all a
    state of the program consists of, so that nothing else is written
    to. *)
Theorem one_line_per_demonstration :
  always_ends main_step exited
    (fun s =>
       exists (h1 : hstate UnsafeCounter.class)
              (h2 : hstate SafeCounterOnlyMutex.class)
              (h3 : hstate SafeCounterAtomic.class),
         went_through h1 h2 h3
         /\ complete_run UnsafeCounter.class h1
         /\ complete_run SafeCounterOnlyMutex.class h2
         /\ complete_run SafeCounterAtomic.class h3
         /\ console s
            = [banner;
               ("Unsafe Counter" ++ " Value (Expected 2000): "
                  ++ show_int (UnsafeCounter.count (counter h1)))%string;
               ("Safe Counter (Mutex)" ++ " Value (Expected 2000): "
                  ++ show_int
                       (SafeCounterOnlyMutex.count (counter h2)))%string;
               ("Safe Counter (Atomic)" ++ " Value (Expected 2000): "
                  ++ show_int (SafeCounterAtomic.load (counter h3)))%string])
    boot
  /\ (forall (a : agent) (s s' : program),
         main_step a s = Some s' ->
         (console s' = console s /\ demo_returned s = Some false)
         \/ (exists line, console s' = console s ++ [line]
                          /\ (stage s = 0 \/ demo_returned s = Some true)))
  /\ (forall s : program, s = mkP (control s) (console s)).
Proof.
  split; [|split].
  - apply (always_ends_weaken main_step exited _ _ _)
      with (2 := main_always_ends_runs).
    intros s (h1 & h2 & h3 & Hw & ->).
    destruct (went_through_complete h1 h2 h3 Hw) as (R1 & R2 & R3).
    exists h1, h2, h3. split; [exact Hw|]. split; [exact R1|].
    split; [exact R2|]. split; [exact R3|]. reflexivity.
  - exact console_step.
  - intros [ctl out]. reflexivity.
Qed.

(** C8.  The program takes no argument and starts the first demonstration
    at once.  Each of its actions stays in the stage it is in, when the
    call of that stage has not returned, or goes on to the next stage, when
    it has: so every run goes through [runThreadsUnsafe], [runThreadsSafe]
    and [runThreadsAtomic] in this order, each run to its return.  No run
    is ever stuck, and every run ends with exit code 0, having gone through
    the three calls. *)
Theorem program_runs_three_demos_and_exits_0 :
  always_ends main_step exited
    (fun s =>
       exit_code s = Some 0
       /\ stage s = 4
       /\ exists (h1 : hstate UnsafeCounter.class)
                 (h2 : hstate SafeCounterOnlyMutex.class)
                 (h3 : hstate SafeCounterAtomic.class),
           went_through h1 h2 h3
           /\ complete_run UnsafeCounter.class h1
           /\ complete_run SafeCounterOnlyMutex.class h2
           /\ complete_run SafeCounterAtomic.class h3
           /\ control s = Exited (counter h1) (counter h2) (counter h3) 0)
    boot
  /\ stage boot = 0
  /\ main_step Caller boot
     = Some (mkP (Demo1 (runThreadsUnsafe UnsafeCounter.fresh)) [banner])
  /\ (forall (a : agent) (s s' : program),
         main_step a s = Some s' ->
         (stage s' = stage s /\ demo_returned s = Some false)
         \/ (stage s' = stage s + 1
             /\ (stage s = 0 \/ demo_returned s = Some true)))
  /\ (forall s : program,
         (stage s = 1 -> exists h, control s = Demo1 h)
         /\ (stage s = 2 -> exists u h, control s = Demo2 u h)
         /\ (stage s = 3 -> exists u m h, control s = Demo3 u m h)
         /\ (stage s = 4 <-> exited s = true)).
Proof.
  split; [|split; [reflexivity|split; [reflexivity|split]]].
  - apply (always_ends_weaken main_step exited _ _ _)
      with (2 := main_always_ends_runs).
    intros s (h1 & h2 & h3 & Hw & ->).
    destruct (went_through_complete h1 h2 h3 Hw) as (R1 & R2 & R3).
    split; [reflexivity|]. split; [reflexivity|].
    exists h1, h2, h3. auto.
  - exact stage_step.
  - intros [[|h|u h|u m h|u m x c] out]; unfold stage, exited;
      cbn [control]; repeat split; intros H; try discriminate H;
      try reflexivity; eauto.
Qed.




(** C10, as stated, fails at [n = 2147483648]: the plain [int] counters have
    no defined value there and the atomic one holds -2147483648, not [n]. *)
Lemma variants_differ_at_int_overflow :
  increments UnsafeCounter.class 2147483648 UnsafeCounter.fresh = None
  /\ increments SafeCounterOnlyMutex.class 2147483648
                SafeCounterOnlyMutex.fresh = None
  /\ increments SafeCounterAtomic.class 2147483648 SafeCounterAtomic.fresh
     = Some (SafeCounterAtomic.mk (-2147483648))
  /\ ~ (forall n : N,
           option_map (read_count SafeCounterAtomic.class)
                      (increments SafeCounterAtomic.class n
                                  SafeCounterAtomic.fresh)
           = Some (Z.of_N n)).
Proof.
  assert (E : increments SafeCounterAtomic.class 2147483648
                         SafeCounterAtomic.fresh
              = Some (SafeCounterAtomic.mk (-2147483648))).
  { rewrite atomic_increments. reflexivity. }
  split; [rewrite unsafe_increments; reflexivity|].
  split; [rewrite mutex_increments; reflexivity|].
  split; [exact E|].
  intros H. specialize (H 2147483648%N). rewrite E in H. discriminate.
Qed.

(** C10, amended.  Run by one thread, the three [increment]s agree as long as
    the counter stays within [int]: each takes a counter holding
    [v < INT_MAX] to [v + 1], and [n <= INT_MAX] calls in a row on a new
    counter leave [n] in all three classes. *)
Theorem variants_agree_within_int (v : Z) (n : N) :
  INT_MIN <= v < INT_MAX ->
  Z.of_N n <= INT_MAX ->
  (option_map (read_count UnsafeCounter.class)
              (increment UnsafeCounter.class (UnsafeCounter.mk v))
   = Some (v + 1)
   /\ option_map (read_count SafeCounterOnlyMutex.class)
                 (increment SafeCounterOnlyMutex.class
                            (SafeCounterOnlyMutex.mk v None))
      = Some (v + 1)
   /\ option_map (read_count SafeCounterAtomic.class)
                 (increment SafeCounterAtomic.class (SafeCounterAtomic.mk v))
      = Some (v + 1))
  /\ (option_map (read_count UnsafeCounter.class)
                 (increments UnsafeCounter.class n UnsafeCounter.fresh)
      = Some (Z.of_N n)
      /\ option_map (read_count SafeCounterOnlyMutex.class)
                    (increments SafeCounterOnlyMutex.class n
                                SafeCounterOnlyMutex.fresh)
         = Some (Z.of_N n)
      /\ option_map (read_count SafeCounterAtomic.class)
                    (increments SafeCounterAtomic.class n
                                SafeCounterAtomic.fresh)
         = Some (Z.of_N n)).
Proof.
  rewrite INT_MAX_value, INT_MIN_value. intros Hv Hn. split.
  - rewrite unsafe_increment, mutex_increment, atomic_increment.
    rewrite int_incr_small by lia. rewrite wrap_int_small by lia.
    repeat split.
  - rewrite unsafe_increments, mutex_increments, atomic_increments.
    destruct (Z.leb_spec (Z.of_N n) 2147483647); [|lia].
    rewrite wrap_int_small by lia. repeat split.
Qed.

(** C10 amended, at a counter holding 1999 and for 2000 calls in a row. *)
Lemma variants_agree_within_int_witness :
  option_map (read_count SafeCounterOnlyMutex.class)
             (increment SafeCounterOnlyMutex.class
                        (SafeCounterOnlyMutex.mk 1999 None))
  = Some (1999 + 1)
  /\ option_map (read_count UnsafeCounter.class)
                (increments UnsafeCounter.class 2000 UnsafeCounter.fresh)
     = Some (Z.of_N 2000).
Proof.
  assert (Hv : INT_MIN <= 1999 < INT_MAX)
    by (split; [vm_compute; discriminate | reflexivity]).
  assert (Hn : Z.of_N 2000 <= INT_MAX) by (vm_compute; discriminate).
  destruct (variants_agree_within_int 1999 2000 Hv Hn)
    as ((_ & H1 & _) & (H2 & _)).
  split; [exact H1 | exact H2].
Defined.

(* ================================================================= *)
(** * Further facts about the three demonstrations *)

(** ** The range of the unprotected counter *)

Lemma unsafe_low_step (a : agent) (s s' : hstate UnsafeCounter.class) :
  hinv s -> unsafe_inv s -> unsafe_low s -> hstep a s = Some s' ->
  unsafe_low s'.
Proof.
  destruct s as [[n] th1 th2 c h]. unfold hinv, unsafe_inv, unsafe_low.
  intros (Hs & W1 & W2 & _) Hn Hl E. harness_unfold.
  destruct a as [|[|]]; harness_cases E; split_points; harness_unfold;
    cbn [unsafe_tmp_low] in *; try (exfalso; lia); lia.
Qed.

Lemma unsafe_low_enter : unsafe_low (runThreadsUnsafe UnsafeCounter.fresh).
Proof. unfold unsafe_low. cbn. intuition lia. Qed.

Lemma unsafe_low_reaches (s : hstate UnsafeCounter.class) :
  reaches hstep (runThreadsUnsafe UnsafeCounter.fresh) s ->
  hinv s /\ unsafe_inv s /\ unsafe_low s.
Proof.
  apply (invariant_reaches hstep
           (fun x => hinv x /\ unsafe_inv x /\ unsafe_low x)).
  - intros a x y (H1 & H2 & H3) E. split; [|split].
    + exact (hinv_step _ a x y H1 E).
    + exact (unsafe_inv_step a x y H1 H2 E).
    + exact (unsafe_low_step a x y H1 H2 H3 E).
  - split; [apply hinv_enter | split; [apply unsafe_enter|]].
    apply unsafe_low_enter.
Qed.

Lemma unsafe_low_final (s : hstate UnsafeCounter.class) :
  hinv s -> unsafe_low s -> returned s = true ->
  2 <= UnsafeCounter.count (counter s).
Proof.
  destruct s as [[n] th1 th2 c h]. unfold hinv, unsafe_low.
  intros (Hs & _) Hn Hr.
  destruct c; try discriminate.
  destruct th1 as [|[?|? ?|]|]; destruct th2 as [|[?|? ?|]|];
    harness_unfold; lia.
Qed.

Lemma unsafe_always_ends_2 :
  always_ends hstep returned
    (fun s : hstate UnsafeCounter.class =>
       2 <= UnsafeCounter.count (counter s) <= 2000)
    (runThreadsUnsafe UnsafeCounter.fresh).
Proof.
  apply (always_ends_by_measure hstep returned
           (fun s => hinv s /\ unsafe_inv s /\ unsafe_low s) _
           (@actions_left UnsafeCounter.class unsafe_rank)).
  - intros a s s' (H1 & H2 & H3) E. split; [split; [|split]|].
    + exact (hinv_step _ a s s' H1 E).
    + exact (unsafe_inv_step a s s' H1 H2 E).
    + exact (unsafe_low_step a s s' H1 H2 H3 E).
    + exact (actions_left_step _ _ unsafe_rank_ok a s s' H1 E).
  - intros s (H1 & H2 & _). apply unsafe_progress; assumption.
  - intros s (H1 & H2 & H3) Hr. split.
    + apply unsafe_low_final; assumption.
    + apply unsafe_final; assumption.
  - split; [apply hinv_enter | split; [apply unsafe_enter|]].
    apply unsafe_low_enter.
Qed.

(** *** Runs of the unprotected counter, piece by piece *)

Lemma run_schedule_app (C : counter_class) (l1 l2 : list agent)
      (s : hstate C) :
  run_schedule (l1 ++ l2) s
  = match run_schedule l1 s with
    | Some s1 => run_schedule l2 s1
    | None => None
    end.
Proof.
  revert s. induction l1 as [|a l1 IH]; intros s; [reflexivity|].
  cbn [app run_schedule]. destruct (hstep a s); [apply IH | reflexivity].
Qed.

Ltac unsafe_run :=
  cbn [run_schedule];
  unfold hstep, worker_step, caller_step, task_step, record;
  cbn [get_thread counter thread1 thread2 caller history
       increment_step increment_entry obj point UnsafeCounter.class];
  unfold UnsafeCounter.step; cbn [UnsafeCounter.count].

Lemma unsafe_load_1 (c i : Z) (th2 : thread UnsafeCounter.class)
      (pc : rpc) (h : list event) :
  i < 1000 ->
  exists h',
    run_schedule [Worker T1; Worker T1]
      (mkH UnsafeCounter.class (UnsafeCounter.mk c) (Running (AtLoop i))
           th2 pc h)
    = Some (mkH UnsafeCounter.class (UnsafeCounter.mk c)
                (Running (@InCall UnsafeCounter.class i
                                  (UnsafeCounter.Store c)))
                th2 pc h').
Proof.
  intros Hi. eexists. unsafe_run.
  rewrite (proj2 (Z.ltb_lt i 1000)) by exact Hi. unsafe_run. reflexivity.
Qed.

Lemma unsafe_load_2 (c i : Z) (th1 : thread UnsafeCounter.class)
      (pc : rpc) (h : list event) :
  i < 1000 ->
  exists h',
    run_schedule [Worker T2; Worker T2]
      (mkH UnsafeCounter.class (UnsafeCounter.mk c) th1
           (Running (AtLoop i)) pc h)
    = Some (mkH UnsafeCounter.class (UnsafeCounter.mk c) th1
                (Running (@InCall UnsafeCounter.class i
                                  (UnsafeCounter.Store c)))
                pc h').
Proof.
  intros Hi. eexists. unsafe_run.
  rewrite (proj2 (Z.ltb_lt i 1000)) by exact Hi. unsafe_run. reflexivity.
Qed.

Lemma unsafe_store_1 (c tmp i : Z) (th2 : thread UnsafeCounter.class)
      (pc : rpc) (h : list event) :
  tmp < 2147483647 -> i < 1000 ->
  exists h',
    run_schedule [Worker T1]
      (mkH UnsafeCounter.class (UnsafeCounter.mk c)
           (Running (@InCall UnsafeCounter.class i
                             (UnsafeCounter.Store tmp)))
           th2 pc h)
    = Some (mkH UnsafeCounter.class (UnsafeCounter.mk (tmp + 1))
                (Running (AtLoop (i + 1))) th2 pc h').
Proof.
  intros Ht Hi. eexists. unsafe_run.
  rewrite (int_incr_small tmp), (int_incr_small i) by lia. reflexivity.
Qed.

Lemma unsafe_store_2 (c tmp i : Z) (th1 : thread UnsafeCounter.class)
      (pc : rpc) (h : list event) :
  tmp < 2147483647 -> i < 1000 ->
  exists h',
    run_schedule [Worker T2]
      (mkH UnsafeCounter.class (UnsafeCounter.mk c) th1
           (Running (@InCall UnsafeCounter.class i
                             (UnsafeCounter.Store tmp)))
           pc h)
    = Some (mkH UnsafeCounter.class (UnsafeCounter.mk (tmp + 1)) th1
                (Running (AtLoop (i + 1))) pc h').
Proof.
  intros Ht Hi. eexists. unsafe_run.
  rewrite (int_incr_small tmp), (int_incr_small i) by lia. reflexivity.
Qed.

Lemma unsafe_whole_1 (k : nat) :
  forall (c i : Z) (th2 : thread UnsafeCounter.class) (pc : rpc)
         (h : list event),
    i + Z.of_nat k <= 1000 -> c + Z.of_nat k <= 2147483647 ->
    exists h',
      run_schedule (whole_increments T1 k)
        (mkH UnsafeCounter.class (UnsafeCounter.mk c) (Running (AtLoop i))
             th2 pc h)
      = Some (mkH UnsafeCounter.class (UnsafeCounter.mk (c + Z.of_nat k))
                  (Running (AtLoop (i + Z.of_nat k))) th2 pc h').
Proof.
  induction k as [|k IH]; intros c i th2 pc h Hi Hc.
  - exists h. cbn [Z.of_nat]. rewrite !Z.add_0_r. reflexivity.
  - unfold whole_increments. cbn [List.repeat List.concat].
    change ([Worker T1; Worker T1; Worker T1]
              ++ List.concat
                   (List.repeat [Worker T1; Worker T1; Worker T1] k))
      with ([Worker T1; Worker T1]
              ++ [Worker T1] ++ whole_increments T1 k).
    rewrite Nat2Z.inj_succ in Hi, Hc.
    destruct (unsafe_load_1 c i th2 pc h) as [h1 E1]; [lia|].
    destruct (unsafe_store_1 c c i th2 pc h1) as [h2 E2]; [lia|lia|].
    destruct (IH (c + 1) (i + 1) th2 pc h2) as [h3 E3]; [lia|lia|].
    exists h3. rewrite run_schedule_app, E1, run_schedule_app, E2, E3.
    rewrite Nat2Z.inj_succ.
    replace (c + Z.succ (Z.of_nat k)) with (c + 1 + Z.of_nat k) by lia.
    replace (i + Z.succ (Z.of_nat k)) with (i + 1 + Z.of_nat k) by lia.
    reflexivity.
Qed.

Lemma unsafe_whole_2 (k : nat) :
  forall (c i : Z) (th1 : thread UnsafeCounter.class) (pc : rpc)
         (h : list event),
    i + Z.of_nat k <= 1000 -> c + Z.of_nat k <= 2147483647 ->
    exists h',
      run_schedule (whole_increments T2 k)
        (mkH UnsafeCounter.class (UnsafeCounter.mk c) th1
             (Running (AtLoop i)) pc h)
      = Some (mkH UnsafeCounter.class (UnsafeCounter.mk (c + Z.of_nat k)) th1
                  (Running (AtLoop (i + Z.of_nat k))) pc h').
Proof.
  induction k as [|k IH]; intros c i th1 pc h Hi Hc.
  - exists h. cbn [Z.of_nat]. rewrite !Z.add_0_r. reflexivity.
  - unfold whole_increments. cbn [List.repeat List.concat].
    change ([Worker T2; Worker T2; Worker T2]
              ++ List.concat
                   (List.repeat [Worker T2; Worker T2; Worker T2] k))
      with ([Worker T2; Worker T2]
              ++ [Worker T2] ++ whole_increments T2 k).
    rewrite Nat2Z.inj_succ in Hi, Hc.
    destruct (unsafe_load_2 c i th1 pc h) as [h1 E1]; [lia|].
    destruct (unsafe_store_2 c c i th1 pc h1) as [h2 E2]; [lia|lia|].
    destruct (IH (c + 1) (i + 1) th1 pc h2) as [h3 E3]; [lia|lia|].
    exists h3. rewrite run_schedule_app, E1, run_schedule_app, E2, E3.
    rewrite Nat2Z.inj_succ.
    replace (c + Z.succ (Z.of_nat k)) with (c + 1 + Z.of_nat k) by lia.
    replace (i + Z.succ (Z.of_nat k)) with (i + 1 + Z.of_nat k) by lia.
    reflexivity.
Qed.

Lemma unsafe_exit_1 (c i : Z) (th2 : thread UnsafeCounter.class)
      (pc : rpc) (h : list event) :
  1000 <= i ->
  exists h',
    run_schedule [Worker T1]
      (mkH UnsafeCounter.class (UnsafeCounter.mk c) (Running (AtLoop i))
           th2 pc h)
    = Some (mkH UnsafeCounter.class (UnsafeCounter.mk c) (Running Finished)
                th2 pc h').
Proof.
  intros Hi. eexists. unsafe_run.
  rewrite (proj2 (Z.ltb_ge i 1000)) by exact Hi. reflexivity.
Qed.

Lemma unsafe_exit_2 (c i : Z) (th1 : thread UnsafeCounter.class)
      (pc : rpc) (h : list event) :
  1000 <= i ->
  exists h',
    run_schedule [Worker T2]
      (mkH UnsafeCounter.class (UnsafeCounter.mk c) th1
           (Running (AtLoop i)) pc h)
    = Some (mkH UnsafeCounter.class (UnsafeCounter.mk c) th1
                (Running Finished) pc h').
Proof.
  intros Hi. eexists. unsafe_run.
  rewrite (proj2 (Z.ltb_ge i 1000)) by exact Hi. reflexivity.
Qed.

(** The run of [overwrite_schedule x y] ends with [1001 + y - x]. *)
Lemma overwrite_run (x y : nat) :
  (x <= 999)%nat -> (y <= 999)%nat ->
  exists s,
    run_schedule (overwrite_schedule x y)
                 (runThreadsUnsafe UnsafeCounter.fresh) = Some s
    /\ returned s = true
    /\ UnsafeCounter.count (counter s) = 1001 + Z.of_nat y - Z.of_nat x.
Proof.
  intros Hx Hy. unfold overwrite_schedule.
  set (s0 := mkH UnsafeCounter.class (UnsafeCounter.mk 0)
                 (Running (AtLoop 0)) (Running (AtLoop 0)) Join1
                 [EvSpawn T2; EvSpawn T1]).
  assert (E0 : run_schedule [Caller; Caller]
                 (runThreadsUnsafe UnsafeCounter.fresh) = Some s0)
    by reflexivity.
  destruct (unsafe_load_1 0 0 (Running (AtLoop 0)) Join1
              [EvSpawn T2; EvSpawn T1]) as [h1 E1]; [lia|].
  destruct (unsafe_whole_2 x 0 0
              (Running (@InCall UnsafeCounter.class 0
                                (UnsafeCounter.Store 0))) Join1 h1)
    as [h2 E2]; [lia|lia|].
  destruct (unsafe_store_1 (0 + Z.of_nat x) 0 0
              (Running (AtLoop (0 + Z.of_nat x))) Join1 h2)
    as [h3 E3]; [lia|lia|].
  destruct (unsafe_whole_1 y (0 + 1) (0 + 1)
              (Running (AtLoop (0 + Z.of_nat x))) Join1 h3)
    as [h4 E4]; [lia|lia|].
  destruct (unsafe_load_2 (0 + 1 + Z.of_nat y) (0 + Z.of_nat x)
              (Running (AtLoop (0 + 1 + Z.of_nat y))) Join1 h4)
    as [h5 E5]; [lia|].
  destruct (unsafe_whole_1 (999 - y) (0 + 1 + Z.of_nat y)
              (0 + 1 + Z.of_nat y)
              (Running (@InCall UnsafeCounter.class (0 + Z.of_nat x)
                                (UnsafeCounter.Store (0 + 1 + Z.of_nat y))))
              Join1 h5)
    as [h6 E6]; [lia|lia|].
  destruct (unsafe_exit_1 (0 + 1 + Z.of_nat y + Z.of_nat (999 - y))
              (0 + 1 + Z.of_nat y + Z.of_nat (999 - y))
              (Running (@InCall UnsafeCounter.class (0 + Z.of_nat x)
                                (UnsafeCounter.Store (0 + 1 + Z.of_nat y))))
              Join1 h6)
    as [h7 E7]; [lia|].
  destruct (unsafe_store_2 (0 + 1 + Z.of_nat y + Z.of_nat (999 - y))
              (0 + 1 + Z.of_nat y) (0 + Z.of_nat x)
              (Running Finished) Join1 h7)
    as [h8 E8]; [lia|lia|].
  destruct (unsafe_whole_2 (999 - x) (0 + 1 + Z.of_nat y + 1)
              (0 + Z.of_nat x + 1) (Running Finished) Join1 h8)
    as [h9 E9]; [lia|lia|].
  destruct (unsafe_exit_2
              (0 + 1 + Z.of_nat y + 1 + Z.of_nat (999 - x))
              (0 + Z.of_nat x + 1 + Z.of_nat (999 - x))
              (Running Finished) Join1 h9)
    as [h10 E10]; [lia|].
  eexists.
  rewrite run_schedule_app, E0. unfold s0.
  rewrite run_schedule_app, E1, run_schedule_app, E2, run_schedule_app, E3.
  rewrite run_schedule_app, E4, run_schedule_app, E5, run_schedule_app, E6.
  rewrite run_schedule_app, E7, run_schedule_app, E8, run_schedule_app, E9.
  rewrite run_schedule_app, E10.
  split; [reflexivity|]. split; [reflexivity|].
  cbn [counter UnsafeCounter.count]. lia.
Qed.

(** Every value from 2 to 2000 is what some run leaves. *)
Lemma schedule_for_run (v : Z) :
  2 <= v <= 2000 ->
  ends_with UnsafeCounter.class (schedule_for v)
            (runThreadsUnsafe UnsafeCounter.fresh) v = true.
Proof.
  intros Hv. unfold ends_with, schedule_for.
  destruct (Z.leb_spec v 1001).
  - destruct (overwrite_run (Z.to_nat (1001 - v)) 0) as (s & E & Hr & Hc);
      [lia | lia |].
    rewrite E, Hr. cbn [andb read_count UnsafeCounter.class].
    rewrite Hc. apply Z.eqb_eq. lia.
  - destruct (overwrite_run 0 (Z.to_nat (v - 1001))) as (s & E & Hr & Hc);
      [lia | lia |].
    rewrite E, Hr. cbn [andb read_count UnsafeCounter.class].
    rewrite Hc. apply Z.eqb_eq. lia.
Qed.

Lemma lost_update_run :
  run_schedule lost_update_schedule (runThreadsUnsafe UnsafeCounter.fresh)
  = Some lost_update_state.
Proof. reflexivity. Qed.

Lemma atomic_sequential_run :
  run_schedule (sequential_schedule (Z.to_nat 2001))
               (runThreadsAtomic SafeCounterAtomic.fresh)
  = Some atomic_sequential_end.
Proof.
  assert (H : runs_through (sequential_schedule (Z.to_nat 2001))
                           (runThreadsAtomic SafeCounterAtomic.fresh) = true)
    by (vm_compute; reflexivity).
  unfold runs_through in H. unfold atomic_sequential_end.
  destruct (run_schedule (sequential_schedule (Z.to_nat 2001))
                         (runThreadsAtomic SafeCounterAtomic.fresh));
    [reflexivity | discriminate].
Qed.

(** ** Once the call has returned *)

Lemma returned_is_quiet (C : counter_class) (s : hstate C) (a : agent) :
  hinv s -> returned s = true -> hstep a s = None.
Proof.
  destruct s as [o th1 th2 c h]. unfold hinv.
  intros (Hs & _) Hr. destruct c; try discriminate.
  destruct th1 as [|[?|? ?|]|]; destruct th2 as [|[?|? ?|]|];
    harness_unfold; try (exfalso; lia).
  destruct a as [|[|]]; reflexivity.
Qed.

(* ================================================================= *)
(** * Further properties *)

(** X1.  The values the unprotected counter can hold when
    [runThreadsUnsafe] has returned are exactly those from 2 to 2000: every
    run ends within these bounds, and for each such value [schedule_for]
    gives a run that ends with it. *)
Theorem unprotected_final_values_are_2_to_2000 :
  always_ends hstep returned
    (fun s : hstate UnsafeCounter.class =>
       2 <= UnsafeCounter.count (counter s) <= 2000)
    (runThreadsUnsafe UnsafeCounter.fresh)
  /\ forall v : Z,
      (exists s, reaches hstep (runThreadsUnsafe UnsafeCounter.fresh) s
                 /\ returned s = true
                 /\ UnsafeCounter.count (counter s) = v)
      <-> 2 <= v <= 2000.
Proof.
  split; [exact unsafe_always_ends_2|].
  intros v. split.
  - intros (s & Hr & Hf & Hv). subst v.
    destruct (unsafe_low_reaches s Hr) as (H1 & H2 & H3). split.
    + apply unsafe_low_final; assumption.
    + apply unsafe_final; assumption.
  - intros Hv.
    exact (ends_with_run UnsafeCounter.class (schedule_for v) _ v
                         (schedule_for_run v Hv)).
Qed.

(** X2.  Along every run of the unprotected demonstration the counter is
    never above the number of stores made, which is the number of calls of
    [increment] entered less those whose store is still to come: updates
    can be lost, none is made up. *)
Theorem unprotected_counts_no_more_than_stored
        (s : hstate UnsafeCounter.class) :
  reaches hstep (runThreadsUnsafe UnsafeCounter.fresh) s ->
  0 <= UnsafeCounter.count (counter s)
    <= entered_calls s - unsafe_before_store (thread1 s)
                       - unsafe_before_store (thread2 s)
  /\ 0 <= unsafe_before_store (thread1 s) + unsafe_before_store (thread2 s)
       <= 2.
Proof.
  intros Hr. destruct (unsafe_reaches s Hr) as [Hi Hu].
  destruct Hi as (_ & _ & _ & (_ & R1 & _) & (_ & R2 & _)).
  unfold entered_calls. rewrite R1, R2. clear R1 R2 Hr.
  destruct s as [[n] th1 th2 c h]. unfold unsafe_inv in Hu.
  destruct th1 as [|[?|? []|]|]; destruct th2 as [|[?|? []|]|];
    harness_unfold; cbn [unsafe_before_store]; lia.
Qed.

(** X2 where the second worker has stored twice and the first has loaded 0
    and not stored yet: three calls entered, the counter at 2. *)
Lemma unprotected_counts_no_more_than_stored_witness :
  0 <= UnsafeCounter.count (counter lost_update_state)
    <= entered_calls lost_update_state
       - unsafe_before_store (thread1 lost_update_state)
       - unsafe_before_store (thread2 lost_update_state).
Proof.
  apply unprotected_counts_no_more_than_stored.
  exact (run_schedule_reaches _ lost_update_schedule _ _ lost_update_run).
Defined.

(** X3.  Along every run of the locked demonstration no update is lost: at
    every moment the counter is exactly the number of calls of [increment]
    entered less those whose store is still to come, hence at most two
    behind the calls entered and never ahead of them. *)
Theorem locked_counts_every_store
        (s : hstate SafeCounterOnlyMutex.class) :
  reaches hstep (runThreadsSafe SafeCounterOnlyMutex.fresh) s ->
  SafeCounterOnlyMutex.count (counter s)
  = entered_calls s - locked_before_store (thread1 s)
                    - locked_before_store (thread2 s)
  /\ entered_calls s - 2 <= SafeCounterOnlyMutex.count (counter s)
                         <= entered_calls s.
Proof.
  intros Hr. destruct (mutex_reaches s Hr) as [Hi Hm].
  destruct Hi as (_ & _ & _ & (_ & R1 & _) & (_ & R2 & _)).
  unfold entered_calls. rewrite R1, R2. clear R1 R2 Hr.
  destruct s as [[n m] th1 th2 c h]. unfold mutex_inv in Hm.
  destruct Hm as (Hn & _).
  destruct th1 as [|[?|? []|]|]; destruct th2 as [|[?|? []|]|];
    harness_unfold; cbn [locked_before_store]; lia.
Qed.

(** X3 where the first worker holds the mutex with a loaded value and the
    second waits for it: two calls entered, neither has stored, the counter
    at 0. *)
Lemma locked_counts_every_store_witness :
  SafeCounterOnlyMutex.count (counter mutex_midway_state)
  = entered_calls mutex_midway_state
    - locked_before_store (thread1 mutex_midway_state)
    - locked_before_store (thread2 mutex_midway_state).
Proof.
  apply locked_counts_every_store.
  exact (run_schedule_reaches _ mutex_midway _ _ mutex_midway_run).
Defined.

(** X4.  In the locked demonstration a worker that is still in its loop is
    unable to act exactly when it stands at the mutex while the other
    worker holds it; the two workers never wait at the same time. *)
Theorem locked_worker_waits_only_for_the_mutex
        (s : hstate SafeCounterOnlyMutex.class) :
  reaches hstep (runThreadsSafe SafeCounterOnlyMutex.fresh) s ->
  (forall t w,
      get_thread t s = Running w -> has_left_loop w = false ->
      (hstep (Worker t) s = None
       <-> at_lock w = true
           /\ SafeCounterOnlyMutex.mtx (counter s) = Some (other t)))
  /\ (forall w1 w2,
         thread1 s = Running w1 -> thread2 s = Running w2 ->
         has_left_loop w1 = false -> has_left_loop w2 = false ->
         hstep (Worker T1) s <> None \/ hstep (Worker T2) s <> None).
Proof.
  intros Hr. destruct (mutex_reaches s Hr) as [Hi Hm]. clear Hr.
  destruct s as [[n m] th1 th2 c h]. unfold hinv, mutex_inv in *.
  destruct Hi as (_ & W1 & W2 & _).
  destruct Hm as (Hn & Hh & Ho & Htmp1 & Htmp2).
  cbn [counter thread1 thread2 SafeCounterOnlyMutex.mtx
       SafeCounterOnlyMutex.count] in *.
  split.
  - intros t w Et Hw.
    destruct th1 as [|[?|? []|]|]; destruct th2 as [|[?|? []|]|];
      destruct t; cbn [get_thread thread1 thread2] in Et;
      try discriminate Et; injection Et as <-;
      cbn [has_left_loop] in Hw; try discriminate Hw;
      harness_unfold; owner_compute; try (exfalso; lia); subst m;
      unfold hstep, worker_step, task_step, record;
      cbn [get_thread counter thread1 thread2 caller history
           increment_step increment_entry obj point
           SafeCounterOnlyMutex.class other at_lock];
      unfold SafeCounterOnlyMutex.step;
      cbn [SafeCounterOnlyMutex.mtx SafeCounterOnlyMutex.count];
      rewrite ?int_incr_small by lia;
      try match goal with
          | |- context [if ?x <? ?y then _ else _] =>
              destruct (Z.ltb_spec x y)
          end;
      (split; [intros E; try discriminate; split; reflexivity
              | intros [E1 E2]; try discriminate; reflexivity]).
  - intros w1 w2 E1 E2 H1 H2. subst th1 th2.
    destruct w1 as [i|i []|]; try discriminate;
      destruct w2 as [j|j []|]; try discriminate;
      harness_unfold; owner_compute; try (exfalso; lia); subst m;
      unfold hstep, worker_step, task_step, record;
      cbn [get_thread counter thread1 thread2 caller history
           increment_step increment_entry obj point
           SafeCounterOnlyMutex.class];
      unfold SafeCounterOnlyMutex.step;
      cbn [SafeCounterOnlyMutex.mtx SafeCounterOnlyMutex.count];
      rewrite ?int_incr_small by lia;
      try (left;
           match goal with
           | |- context [if ?x <? ?y then _ else _] =>
               destruct (Z.ltb_spec x y)
           | _ => idtac
           end; discriminate);
      try (right;
           match goal with
           | |- context [if ?x <? ?y then _ else _] =>
               destruct (Z.ltb_spec x y)
           | _ => idtac
           end; discriminate).
Qed.

(** X4 where the second worker stands at the mutex the first one holds. *)
Lemma locked_worker_waits_only_for_the_mutex_witness :
  hstep (Worker T2) mutex_midway_state = None
  <-> at_lock (@InCall SafeCounterOnlyMutex.class 0
                       SafeCounterOnlyMutex.Lock) = true
      /\ SafeCounterOnlyMutex.mtx (counter mutex_midway_state) = Some T1.
Proof.
  apply (proj1 (locked_worker_waits_only_for_the_mutex
                  mutex_midway_state
                  (run_schedule_reaches _ mutex_midway _ _ mutex_midway_run))
               T2 (@InCall SafeCounterOnlyMutex.class 0
                           SafeCounterOnlyMutex.Lock));
    reflexivity.
Defined.

(** X5.  In the unprotected and in the atomic demonstration a worker that
    is still in its loop can always act: no worker ever waits for the
    other. *)
Theorem unprotected_and_atomic_workers_never_wait :
  (forall (s : hstate UnsafeCounter.class) t w,
      reaches hstep (runThreadsUnsafe UnsafeCounter.fresh) s ->
      get_thread t s = Running w -> has_left_loop w = false ->
      hstep (Worker t) s <> None)
  /\ (forall (s : hstate SafeCounterAtomic.class) t w,
         reaches hstep (runThreadsAtomic SafeCounterAtomic.fresh) s ->
         get_thread t s = Running w -> has_left_loop w = false ->
         hstep (Worker t) s <> None).
Proof.
  split.
  - intros s t w Hr Et Hw. destruct (unsafe_reaches s Hr) as [Hi Hu].
    clear Hr. destruct s as [[n] th1 th2 c h]. unfold hinv, unsafe_inv in *.
    destruct Hi as (_ & W1 & W2 & _).
    destruct th1 as [|[?|? []|]|]; destruct th2 as [|[?|? []|]|];
      destruct t; cbn [get_thread thread1 thread2] in Et;
      try discriminate Et; injection Et as <-;
      cbn [has_left_loop] in Hw; try discriminate Hw;
      harness_unfold;
      unfold hstep, worker_step, task_step, record;
      cbn [get_thread counter thread1 thread2 caller history
           increment_step increment_entry obj point UnsafeCounter.class];
      unfold UnsafeCounter.step; cbn [UnsafeCounter.count];
      rewrite ?int_incr_small by lia;
      try match goal with
          | |- context [if ?x <? ?y then _ else _] =>
              destruct (Z.ltb_spec x y)
          end;
      discriminate.
  - intros s t w Hr Et Hw. destruct (atomic_reaches s Hr) as [Hi Hu].
    clear Hr. destruct s as [[n] th1 th2 c h]. unfold hinv, atomic_inv in *.
    destruct Hi as (_ & W1 & W2 & _).
    destruct th1 as [|[?|? []|]|]; destruct th2 as [|[?|? []|]|];
      destruct t; cbn [get_thread thread1 thread2] in Et;
      try discriminate Et; injection Et as <-;
      cbn [has_left_loop] in Hw; try discriminate Hw;
      harness_unfold;
      unfold hstep, worker_step, task_step, record;
      cbn [get_thread counter thread1 thread2 caller history
           increment_step increment_entry obj point SafeCounterAtomic.class];
      unfold SafeCounterAtomic.step; cbn [SafeCounterAtomic.count];
      rewrite ?int_incr_small by lia;
      try match goal with
          | |- context [if ?x <? ?y then _ else _] =>
              destruct (Z.ltb_spec x y)
          end;
      discriminate.
Qed.

(** X5 for the first worker of the unprotected run, about to store over
    the second worker's two increments. *)
Lemma unprotected_and_atomic_workers_never_wait_witness :
  hstep (Worker T1) lost_update_state <> None.
Proof.
  apply (proj1 unprotected_and_atomic_workers_never_wait
               lost_update_state T1
               (@InCall UnsafeCounter.class 0 (UnsafeCounter.Store 0))).
  - exact (run_schedule_reaches _ lost_update_schedule _ _ lost_update_run).
  - reflexivity.
  - reflexivity.
Defined.

(** X6.  Whatever the counter class, once [runThreads*] has returned none of
    its threads can act any more: both workers are over when the second
    [join] is passed. *)
Theorem nothing_acts_after_the_joins
        (C : counter_class) (o : obj C) (s : hstate C) (a : agent) :
  reaches hstep (enter C o) s -> returned s = true -> hstep a s = None.
Proof.
  intros Hr Hf. apply returned_is_quiet; [|exact Hf].
  exact (hinv_reaches C o s Hr).
Qed.

(** X6 at the end of the sequential run of the atomic demonstration. *)
Lemma nothing_acts_after_the_joins_witness :
  hstep (Worker T2) atomic_sequential_end = None.
Proof.
  apply (nothing_acts_after_the_joins
           SafeCounterAtomic.class SafeCounterAtomic.fresh).
  - exact (run_schedule_reaches _ _ _ _ atomic_sequential_run).
  - vm_compute. reflexivity.
Defined.

(** ** The runs of the whole program *)

Lemma main_always_ends_2 :
  always_ends main_step exited
    (fun s => exists v, 2 <= v <= 2000
                        /\ exit_code s = Some 0
                        /\ console s = expected_console v)
    boot.
Proof.
  apply ends_later; [reflexivity | |].
  - eexists. exists Caller. reflexivity.
  - intros s' [a E]. apply main_step_start in E. subst s'.
    apply (demo1_ends _ _ _ _ unsafe_always_ends_2). intros h1 _ Hu.
    apply (demo2_ends _ _ _ _ _ mutex_always_ends). intros h2 _ [_ Hm].
    apply (demo3_ends _ _ _ _ _ _ atomic_always_ends). intros h3 _ [_ Ha].
    exists (UnsafeCounter.count (counter h1)). split; [exact Hu|].
    split; [reflexivity|].
    cbn [control console]. rewrite Hm, Ha. reflexivity.
Qed.

Lemma always_ends_at_final {State : Type}
      (move : agent -> State -> option State) (final : State -> bool)
      (P : State -> Prop) (s : State) :
  always_ends move final P s -> final s = true -> P s.
Proof.
  intros [Hf Hp | Hf _ _] E; [exact Hp | congruence].
Qed.

Lemma not_returned_if_moves (C : counter_class) (h h' : hstate C)
      (a : agent) :
  hinv h -> hstep a h = Some h' -> returned h = false.
Proof.
  intros Hi E. destruct (returned h) eqn:R; [|reflexivity].
  rewrite (returned_is_quiet C h a Hi R) in E. discriminate.
Qed.

Lemma demo1_lift (out : list string) (h h' : hstate UnsafeCounter.class) :
  hinv h -> reaches hstep h h' ->
  reaches main_step (mkP (Demo1 h) out) (mkP (Demo1 h') out).
Proof.
  intros Hi Hr. induction Hr as [|h1 h2 Hr1 IH [a E]]; [constructor|].
  apply (reaches_more main_step _ (mkP (Demo1 h1) out)); [exact IH|].
  exists a. unfold main_step. cbn [control console].
  rewrite (not_returned_if_moves _ h1 h2 a
             (invariant_reaches hstep hinv (fun a x y => hinv_step _ a x y)
                                h h1 Hi Hr1) E).
  rewrite E. reflexivity.
Qed.

Lemma demo2_lift (out : list string) (u : UnsafeCounter.t)
      (h h' : hstate SafeCounterOnlyMutex.class) :
  hinv h -> reaches hstep h h' ->
  reaches main_step (mkP (Demo2 u h) out) (mkP (Demo2 u h') out).
Proof.
  intros Hi Hr. induction Hr as [|h1 h2 Hr1 IH [a E]]; [constructor|].
  apply (reaches_more main_step _ (mkP (Demo2 u h1) out)); [exact IH|].
  exists a. unfold main_step. cbn [control console].
  rewrite (not_returned_if_moves _ h1 h2 a
             (invariant_reaches hstep hinv (fun a x y => hinv_step _ a x y)
                                h h1 Hi Hr1) E).
  rewrite E. reflexivity.
Qed.

Lemma demo3_lift (out : list string) (u : UnsafeCounter.t)
      (m : SafeCounterOnlyMutex.t) (h h' : hstate SafeCounterAtomic.class) :
  hinv h -> reaches hstep h h' ->
  reaches main_step (mkP (Demo3 u m h) out) (mkP (Demo3 u m h') out).
Proof.
  intros Hi Hr. induction Hr as [|h1 h2 Hr1 IH [a E]]; [constructor|].
  apply (reaches_more main_step _ (mkP (Demo3 u m h1) out)); [exact IH|].
  exists a. unfold main_step. cbn [control console].
  rewrite (not_returned_if_moves _ h1 h2 a
             (invariant_reaches hstep hinv (fun a x y => hinv_step _ a x y)
                                h h1 Hi Hr1) E).
  rewrite E. reflexivity.
Qed.

Lemma reaches_one {State : Type} (move : agent -> State -> option State)
      (a : agent) (s s' : State) :
  move a s = Some s' -> reaches move s s'.
Proof.
  intros E. apply (reaches_more move s s s'); [constructor|].
  exists a. exact E.
Qed.

Lemma program_can_print (v : Z) :
  2 <= v <= 2000 ->
  exists s, reaches main_step boot s /\ exited s = true
            /\ console s = expected_console v.
Proof.
  intros Hv.
  destruct (ends_with_run UnsafeCounter.class (schedule_for v) _ v
                          (schedule_for_run v Hv)) as (h1 & R1 & F1 & V1).
  destruct (always_ends_run hstep returned _ _ mutex_always_ends)
    as (h2 & R2 & F2 & _ & V2).
  destruct (always_ends_run hstep returned _ _ atomic_always_ends)
    as (h3 & R3 & F3 & _ & V3).
  cbn [read_count UnsafeCounter.class] in V1.
  eexists. split; [|split].
  - eapply reaches_trans; [apply (reaches_one main_step Caller); reflexivity|].
    eapply reaches_trans;
      [apply (demo1_lift _ _ h1 (hinv_enter _ _) R1)|].
    eapply reaches_trans;
      [apply (reaches_one main_step Caller); unfold main_step;
       cbn [control console]; rewrite F1; reflexivity|].
    eapply reaches_trans;
      [apply (demo2_lift _ _ _ h2 (hinv_enter _ _) R2)|].
    eapply reaches_trans;
      [apply (reaches_one main_step Caller); unfold main_step;
       cbn [control console]; rewrite F2; reflexivity|].
    eapply reaches_trans;
      [apply (demo3_lift _ _ _ _ h3 (hinv_enter _ _) R3)|].
    apply (reaches_one main_step Caller). unfold main_step.
    cbn [control console]. rewrite F3. reflexivity.
  - reflexivity.
  - cbn [console]. rewrite V1, V2, V3. reflexivity.
Qed.

(** X7.  What the program can have written when it exits: the banner, the
    line of the unprotected counter with some value from 2 to 2000, and
    the lines of the locked and of the atomic counter, both with 2000.
    Every run ends so, with exit code 0, and each of these values occurs in
    some run. *)
Theorem program_output_is_fixed_but_for_one_number :
  always_ends main_step exited
    (fun s => exists v, 2 <= v <= 2000
                        /\ exit_code s = Some 0
                        /\ console s = expected_console v)
    boot
  /\ forall out : list string,
      (exists s, reaches main_step boot s /\ exited s = true
                 /\ console s = out)
      <-> (exists v, 2 <= v <= 2000 /\ out = expected_console v).
Proof.
  split; [exact main_always_ends_2|].
  intros out. split.
  - intros (s & Hr & Hf & Ho).
    assert (H : always_ends main_step exited
                  (fun s => exists v, 2 <= v <= 2000
                                      /\ exit_code s = Some 0
                                      /\ console s = expected_console v) s).
    { apply (always_ends_reaches main_step exited _ boot s
               main_always_ends_2); [|exact Hr].
      intros [[|h|u h|u m h|u m x c] o] Hx a; try discriminate Hx.
      reflexivity. }
    destruct (always_ends_at_final _ _ _ _ H Hf) as (v & Hv & _ & Hc).
    exists v. split; [exact Hv | congruence].
  - intros (v & Hv & ->).
    destruct (program_can_print v Hv) as (s & Hr & Hf & Hc).
    exists s. auto.
Qed.

(* ================================================================= *)
(** * The other programs *)

(** ** Text *)

Lemma string_app_assoc (a b c : string) :
  ((a ++ b) ++ c = a ++ (b ++ c))%string.
Proof.
  induction a as [|x a IH]; [reflexivity|]. cbn. rewrite IH. reflexivity.
Qed.

Lemma string_app_nil_r (a : string) : (a ++ EmptyString = a)%string.
Proof.
  induction a as [|x a IH]; [reflexivity|]. cbn. rewrite IH. reflexivity.
Qed.

(** ** The free store *)

Section FreeStoreFacts.

Variable V : Type.

Lemma lookup_bound (a : addr) (h : heap V) (v : V) :
  lookup a h = Some v ->
  (a <= List.fold_right (fun b m => Nat.max (fst b) m) O h)%nat.
Proof.
  induction h as [|[b u] h IH]; cbn [lookup List.fold_right fst].
  - discriminate.
  - destruct (Nat.eqb_spec a b) as [->|Hab]; intros E.
    + apply Nat.le_max_l.
    + apply IH in E. lia.
Qed.

Lemma above_all_allocator : allocator (@above_all V).
Proof.
  intros h. destruct (lookup (above_all h) h) as [v|] eqn:E; [|reflexivity].
  apply lookup_bound in E. unfold above_all in E. lia.
Qed.

Variable pick : heap V -> addr.
Hypothesis pick_fresh : allocator pick.

Lemma lookup_new (v : V) (h : heap V) :
  lookup (pick h) ((pick h, v) :: h) = Some v.
Proof. cbn [lookup]. rewrite Nat.eqb_refl. reflexivity. Qed.

Lemma lookup_old (a : addr) (u v : V) (h : heap V) :
  lookup a h = Some u -> lookup a ((pick h, v) :: h) = Some u.
Proof.
  intros E. cbn [lookup]. destruct (Nat.eqb_spec a (pick h)) as [->|]; [|exact E].
  rewrite pick_fresh in E. discriminate.
Qed.

Lemma new_is_not_old (a : addr) (u : V) (h : heap V) :
  lookup a h = Some u -> pick h <> a.
Proof.
  intros E Hp. subst a. rewrite pick_fresh in E. discriminate.
Qed.

Lemma free_new (v : V) (h : heap V) :
  free (pick h) ((pick h, v) :: h) = Some h.
Proof. cbn [free]. rewrite Nat.eqb_refl. reflexivity. Qed.

End FreeStoreFacts.

(** ** [Student] *)

Lemma student_console (l : list Student.call) :
  forall (s : Student.t) (out : string),
    snd (Student.do_calls l (s, out))
    = (out ++ Student.refusals
                (List.length (List.filter Student.refused l)))%string.
Proof.
  induction l as [|c l IH]; intros s out.
  - cbn. rewrite string_app_nil_r. reflexivity.
  - unfold Student.do_calls in *. cbn [List.fold_left].
    destruct c as [n|a]; cbn [Student.do_call fst snd List.filter
                                  Student.refused].
    + apply IH.
    + unfold Student.setAge.
      destruct (Z.ltb_spec 0 a); destruct (Z.leb_spec a 0); try lia.
      * apply IH.
      * rewrite IH. cbn [List.length Student.refusals]. unfold print.
        apply string_app_assoc.
Qed.

Lemma student_age_positive (l : list Student.call) :
  forall (s : Student.t) (out : string),
    (forall a0, Student.getAge s = Some a0 -> 0 < a0) ->
    forall a', Student.getAge (fst (Student.do_calls l (s, out))) = Some a' ->
               0 < a'.
Proof.
  induction l as [|c l IH]; intros s out Hs a'.
  - cbn. apply Hs.
  - unfold Student.do_calls in *. cbn [List.fold_left].
    destruct c as [n|a]; cbn [Student.do_call fst snd].
    + apply IH. exact Hs.
    + unfold Student.setAge. destruct (Z.ltb_spec 0 a).
      * apply IH. cbn. intros a0 E. inversion E. subst. assumption.
      * apply IH. exact Hs.
Qed.

(** X8.  [Student]: whatever calls of [setName] and [setAge] are made on a
    student whose age, if it has one, is positive, the age stays positive;
    [setAge] with a positive argument makes it the age, with any other
    argument it changes nothing; and the text written is one refusal line
    for each refused argument. *)
Theorem student_age_stays_positive
        (l : list Student.call) (s : Student.t) (out : string) :
  (forall a0, Student.getAge s = Some a0 -> 0 < a0) ->
  (forall a', Student.getAge (fst (Student.do_calls l (s, out))) = Some a' ->
              0 < a')
  /\ snd (Student.do_calls l (s, out))
     = (out ++ Student.refusals
                 (List.length (List.filter Student.refused l)))%string
  /\ (forall a, 0 < a ->
                Student.getAge
                  (fst (Student.do_calls (l ++ [Student.SetAge a]) (s, out)))
                = Some a)
  /\ (forall a, a <= 0 ->
                fst (Student.do_calls (l ++ [Student.SetAge a]) (s, out))
                = fst (Student.do_calls l (s, out)))
  /\ (forall n,
         Student.getName
           (fst (Student.do_calls (l ++ [Student.SetName n]) (s, out))) = n
         /\ Student.getAge
              (fst (Student.do_calls (l ++ [Student.SetName n]) (s, out)))
            = Student.getAge (fst (Student.do_calls l (s, out)))).
Proof.
  intros Hs. split; [exact (student_age_positive l s out Hs)|].
  split; [exact (student_console l s out)|].
  unfold Student.do_calls. split; [|split].
  - intros a Ha. rewrite List.fold_left_app. cbn [List.fold_left].
    cbn [Student.do_call]. unfold Student.setAge.
    destruct (Z.ltb_spec 0 a); [reflexivity | lia].
  - intros a Ha. rewrite List.fold_left_app. cbn [List.fold_left].
    cbn [Student.do_call]. unfold Student.setAge.
    destruct (Z.ltb_spec 0 a); [lia | reflexivity].
  - intros n. rewrite List.fold_left_app. cbn [List.fold_left].
    split; reflexivity.
Qed.

(** X8 on the calls [main] makes: the age is 20 and the refusal was written
    once, for -5. *)
Lemma student_age_stays_positive_witness :
  Student.getAge
    (fst (Student.do_calls
            [Student.SetName "John Doe"; Student.SetAge 20;
             Student.SetAge (-5)]
            (Student.fresh, EmptyString)))
  = Some 20
  /\ snd (Student.do_calls
            [Student.SetName "John Doe"; Student.SetAge 20;
             Student.SetAge (-5)]
            (Student.fresh, EmptyString))
     = Student.refusal.
Proof.
  assert (H0 : forall a0, Student.getAge Student.fresh = Some a0 -> 0 < a0)
    by (intros a0 E; discriminate E).
  destruct (student_age_stays_positive
              [Student.SetName "John Doe"; Student.SetAge 20;
               Student.SetAge (-5)]
              Student.fresh EmptyString H0) as (_ & H2 & _).
  split; [reflexivity|]. rewrite H2. reflexivity.
Defined.

(** ** [Example] *)

(** X9.  [Example]: the static [count] goes up by one with every object
    constructed, whatever its name, and nothing else touches it: after the
    objects named by [names] it is [count + length names], which is what
    [showCount] then writes. *)
Theorem example_count_counts_constructions (names : list string) (count : Z) :
  count + Z.of_nat (List.length names) <= INT_MAX ->
  Example.construct_all names count
  = Some (List.map Example.mk names, count + Z.of_nat (List.length names))
  /\ forall out,
      Example.showCount (count + Z.of_nat (List.length names)) out
      = (out ++ "Total Objects: "
             ++ show_int (count + Z.of_nat (List.length names)) ++ nl)%string.
Proof.
  rewrite INT_MAX_value. intros H. split; [|reflexivity].
  revert count H. induction names as [|n names IH]; intros count H.
  - cbn. rewrite Z.add_0_r. reflexivity.
  - cbn [List.length] in H. rewrite Nat2Z.inj_succ in H.
    cbn [Example.construct_all]. unfold Example.construct.
    rewrite int_incr_small by lia. rewrite IH by lia.
    cbn [List.map List.length]. rewrite Nat2Z.inj_succ.
    do 2 f_equal. lia.
Qed.

(** X9 on the two objects of [main]. *)
Lemma example_count_counts_constructions_witness :
  Example.construct_all ["Object 1"%string; "Object 2"%string] 0
  = Some ([Example.mk "Object 1"; Example.mk "Object 2"], 2).
Proof.
  assert (H : 0 + Z.of_nat (List.length ["Object 1"%string; "Object 2"%string])
              <= INT_MAX) by (vm_compute; discriminate).
  exact (proj1 (example_count_counts_constructions
                  ["Object 1"%string; "Object 2"%string] 0 H)).
Defined.

(** ** [Resource] *)

Lemma free_absent (V : Type) (a : addr) (h : heap V) :
  lookup a h = None -> free a h = None.
Proof.
  induction h as [|[b u] h IH]; cbn [lookup free]; [reflexivity|].
  destruct (Nat.eqb a b); [discriminate|].
  intros E. rewrite (IH E). reflexivity.
Qed.

Lemma eqb_old_new (V : Type) (pick : heap V -> addr) (a : addr) (u : V)
      (h : heap V) :
  allocator pick -> lookup a h = Some u -> Nat.eqb a (pick h) = false.
Proof.
  intros Hp E. apply Nat.eqb_neq. intros ->. rewrite Hp in E. discriminate.
Qed.

Section ResourceFacts.

Variable pick : heap Z -> addr.
Variable pick_obj : heap Resource.t -> addr.
Hypothesis pick_fresh : allocator pick.
Hypothesis pick_obj_fresh : allocator pick_obj.

Lemma createScope_spec (w : Resource.world) :
  Resource.createScope pick w
  = Some (Resource.mkW (Resource.ints w) (Resource.objs w)
                       (Resource.cout w ++ Resource.scope_transcript)).
Proof.
  unfold Resource.createScope, Resource.construct_named, Resource.new_int,
    Resource.use, Resource.destroy, Resource.say, alloc, print.
  cbn [Resource.ints Resource.objs Resource.cout Resource.data
       Resource.name lookup free].
  rewrite !Nat.eqb_refl. cbn [Resource.ints Resource.objs Resource.cout].
  rewrite (free_new Z pick). rewrite !string_app_assoc. reflexivity.
Qed.

Lemma copy_spec (r : Resource.t) (w : Resource.world) (v : Z) :
  lookup (Resource.data r) (Resource.ints w) = Some v ->
  Resource.construct_copy pick r w
  = Some (Resource.mk (Resource.name r ++ " (Copy)")
                      (pick (Resource.ints w)),
          Resource.mkW ((pick (Resource.ints w), v) :: Resource.ints w)
                       (Resource.objs w)
                       (Resource.cout w
                          ++ "[Copy Constructor] Copied from: "
                          ++ Resource.name r ++ nl)).
Proof.
  intros E. unfold Resource.construct_copy. rewrite E. reflexivity.
Qed.

End ResourceFacts.

(** X10.  [Resource]'s copy constructor makes a deep copy: with any
    allocator, the copy of a resource whose [data] holds [v] has a [data]
    of its own, holding [v] too; destroying the copy deletes only that,
    leaves the free store as it was before the copy and the original's
    [data] in place; destroying the copy a second time has no defined
    result. *)
Theorem resource_copy_is_deep
        (pick : heap Z -> addr) (r : Resource.t) (w : Resource.world)
        (v : Z) :
  allocator pick ->
  lookup (Resource.data r) (Resource.ints w) = Some v ->
  exists r' w',
    Resource.construct_copy pick r w = Some (r', w')
    /\ Resource.name r' = (Resource.name r ++ " (Copy)")%string
    /\ Resource.data r' <> Resource.data r
    /\ lookup (Resource.data r') (Resource.ints w') = Some v
    /\ lookup (Resource.data r) (Resource.ints w') = Some v
    /\ exists w'',
        Resource.destroy r' w' = Some w''
        /\ Resource.ints w'' = Resource.ints w
        /\ Resource.objs w'' = Resource.objs w
        /\ lookup (Resource.data r) (Resource.ints w'') = Some v
        /\ Resource.destroy r' w'' = None.
Proof.
  intros Hp E. eexists. eexists.
  split; [exact (copy_spec pick r w v E)|].
  cbn [Resource.name Resource.data Resource.ints Resource.objs].
  split; [reflexivity|].
  split; [exact (new_is_not_old Z pick Hp _ v _ E)|].
  split; [apply lookup_new|].
  split; [exact (lookup_old Z pick Hp _ v v _ E)|].
  unfold Resource.destroy, Resource.say.
  cbn [Resource.name Resource.data Resource.ints Resource.objs Resource.cout].
  rewrite free_new. eexists. split; [reflexivity|].
  cbn [Resource.ints Resource.objs Resource.cout].
  split; [reflexivity|]. split; [reflexivity|]. split; [exact E|].
  rewrite (free_absent Z _ _ (Hp (Resource.ints w))). reflexivity.
Qed.

(** X10 with the allocator [above_all], on a resource whose [data] at
    address 7 holds 42. *)
Lemma resource_copy_is_deep_witness :
  exists r' w',
    Resource.construct_copy above_all (Resource.mk "R" 7%nat)
                            (Resource.mkW [(7%nat, 42)] [] EmptyString)
    = Some (r', w')
    /\ Resource.data r' <> 7%nat
    /\ lookup (Resource.data r') (Resource.ints w') = Some 42.
Proof.
  destruct (resource_copy_is_deep
              above_all (Resource.mk "R" 7%nat)
              (Resource.mkW [(7%nat, 42)] [] EmptyString) 42
              (above_all_allocator Z) eq_refl)
    as (r' & w' & H1 & _ & H3 & H4 & _).
  exists r', w'. split; [exact H1|]. split; [exact H3 | exact H4].
Defined.

(** X11.  [createScope], whatever address the allocator hands out and in any
    world: it has a result, leaves the free store exactly as it found it,
    and writes the same six lines whatever is in the store. *)
Theorem createScope_leaves_the_store_as_found
        (pick : heap Z -> addr) (w : Resource.world) :
  Resource.createScope pick w
  = Some (Resource.mkW (Resource.ints w) (Resource.objs w)
                       (Resource.cout w ++ Resource.scope_transcript)).
Proof. apply createScope_spec. Qed.

(** X12.  [main] of ConstructorDestructor.cpp, with any allocator and
    whatever the free store holds at the start: it runs to its end with
    exit code 0, every [int] and the [Resource] it made with [new] are
    deleted again, so that the free store is as at the start, and the text
    written is [transcript], with the destructors of [r3] and [r2] last
    and in this order. *)
Theorem resource_main_leaves_nothing_behind
      (pick : heap Z -> addr) (pick_obj : heap Resource.t -> addr)
      (w : Resource.world) :
  allocator pick ->
  Resource.main pick pick_obj w
  = Some (Resource.mkW (Resource.ints w) (Resource.objs w)
                       (Resource.cout w ++ Resource.transcript), 0).
Proof.
  intros Hp. destruct w as [h o out].
  unfold Resource.main, Resource.new_default, Resource.construct_default,
    Resource.new_int, alloc.
  cbn [Resource.ints Resource.objs Resource.cout Resource.say].
  set (a1 := pick h). set (h1 := (a1, 0) :: h).
  assert (L1 : lookup a1 h1 = Some 0) by apply lookup_new.
  unfold Resource.use_at.
  cbn [Resource.ints Resource.objs Resource.cout lookup].
  rewrite Nat.eqb_refl. unfold Resource.use at 1.
  cbn [Resource.ints Resource.objs Resource.cout Resource.data Resource.name
       Resource.say].
  fold h1. rewrite L1.
  unfold Resource.construct_named, Resource.new_int, alloc.
  cbn [Resource.ints Resource.objs Resource.cout Resource.say].
  set (a2 := pick h1). set (h2 := (a2, 0) :: h1).
  assert (L2 : lookup a2 h2 = Some 0) by apply lookup_new.
  unfold Resource.use at 1.
  cbn [Resource.ints Resource.objs Resource.cout Resource.data Resource.name
       Resource.say].
  rewrite L2.
  rewrite (copy_spec pick _ _ 0) by exact L2.
  cbn [Resource.ints Resource.objs Resource.cout Resource.data Resource.name
       Resource.say].
  fold h2. set (a3 := pick h2). set (h3 := (a3, 0) :: h2).
  assert (L3 : lookup a3 h3 = Some 0) by apply lookup_new.
  unfold Resource.use at 1.
  cbn [Resource.ints Resource.objs Resource.cout Resource.data Resource.name
       Resource.say].
  rewrite L3. rewrite createScope_spec.
  unfold Resource.delete.
  cbn [Resource.ints Resource.objs Resource.cout Resource.say lookup].
  rewrite Nat.eqb_refl.
  unfold Resource.destroy.
  cbn [Resource.ints Resource.objs Resource.cout Resource.data Resource.name
       Resource.say].
  assert (N13 : Nat.eqb a1 a3 = false).
  { apply (eqb_old_new Z pick a1 0 h2 Hp).
    exact (lookup_old Z pick Hp a1 0 0 h1 L1). }
  assert (N12 : Nat.eqb a1 a2 = false)
    by exact (eqb_old_new Z pick a1 0 h1 Hp L1).
  unfold h3, h2, h1. cbn [free]. rewrite N13, N12.
  repeat (rewrite Nat.eqb_refl;
          cbn [Resource.ints Resource.objs Resource.cout free]).
  unfold print. rewrite !string_app_assoc. reflexivity.
Qed.

(** X12 with the allocator [above_all] and an empty store. *)
Lemma resource_main_leaves_nothing_behind_witness :
  Resource.main above_all above_all (Resource.mkW [] [] EmptyString)
  = Some (Resource.mkW [] [] Resource.transcript, 0).
Proof.
  exact (resource_main_leaves_nothing_behind
           above_all above_all (Resource.mkW [] [] EmptyString)
           (above_all_allocator Z)).
Defined.

(** ** [Airplane] *)

(** X13.  [Airplane]: with any allocator, a constructed airplane has its
    own [Engine] of type "Jet Engine" in the free store; destroying the
    airplane deletes that engine and leaves the store as it was before the
    airplane, the four lines written being those of the airplane around
    those of its engine; destroying it again has no defined result. *)
Theorem airplane_owns_its_engine
        (pick : heap Airplane.Engine -> addr) (w : Airplane.world) :
  allocator pick ->
  let p := fst (Airplane.construct pick w) in
  let w1 := snd (Airplane.construct pick w) in
  lookup (Airplane.engine p) (Airplane.mem w1)
  = Some (Airplane.mkEngine "Jet Engine")
  /\ (forall a e, lookup a (Airplane.mem w) = Some e ->
                  a <> Airplane.engine p
                  /\ lookup a (Airplane.mem w1) = Some e)
  /\ Airplane.destroy p w1
     = Some (Airplane.mkW
               (Airplane.mem w)
               (Airplane.cout w
                  ++ "Airplane created." ++ nl
                  ++ "  [Engine created]" ++ nl
                  ++ "  [Engine destroyed]" ++ nl
                  ++ "Airplane destroyed." ++ nl))
  /\ forall out, Airplane.destroy p (Airplane.mkW (Airplane.mem w) out) = None.
Proof.
  intros Hp. destruct w as [h out]. unfold Airplane.construct, alloc.
  cbn [fst snd Airplane.mem Airplane.cout Airplane.engine].
  split; [apply lookup_new|]. split; [|split].
  - intros a e E. split.
    + intros ->. rewrite Hp in E. discriminate.
    + exact (lookup_old _ pick Hp a e _ h E).
  - unfold Airplane.destroy.
    cbn [Airplane.mem Airplane.cout Airplane.engine].
    rewrite free_new. unfold print. rewrite !string_app_assoc. reflexivity.
  - intros out'. unfold Airplane.destroy.
    cbn [Airplane.mem Airplane.cout Airplane.engine].
    rewrite (free_absent _ _ _ (Hp h)). reflexivity.
Qed.

(** X13 with the allocator [above_all] and an empty store. *)
Lemma airplane_owns_its_engine_witness :
  Airplane.destroy
    (fst (Airplane.construct above_all (Airplane.mkW [] EmptyString)))
    (snd (Airplane.construct above_all (Airplane.mkW [] EmptyString)))
  = Some (Airplane.mkW
            []
            ("Airplane created." ++ nl
               ++ "  [Engine created]" ++ nl
               ++ "  [Engine destroyed]" ++ nl
               ++ "Airplane destroyed." ++ nl)).
Proof.
  exact (proj1 (proj2 (proj2
           (airplane_owns_its_engine
              above_all (Airplane.mkW [] EmptyString)
              (above_all_allocator Airplane.Engine))))).
Defined.
